(** * ParallelMarkov: the fine-grain Markov chain builder (fine-grain/main.go)

    A shallow embedding of the Prefix window, the Chain table kept in a
    sync.Map, the sequential, goroutine-per-word and partitioned builders
    and the generator, with the properties of the specification stated and
    proved (or refuted) over it.

    Conventions.
    - Go's [int] is [Z]; lengths are far below 2^63, so no wrap-around is
      written out.
    - A [[]string] is a [list string] whose capacity equals its length, as
      [strings.Fields] (the only producer of [words]) and [make] allocate
      them.
    - A run-time panic (index or slice bounds out of range, [make] with a
      negative length, a negative WaitGroup counter) and the run-time's
      fatal deadlock error are [None]: the call does not return. *)

From Stdlib Require Import ZArith Lia Ascii.
From stdpp Require Import gmap strings list fin_maps sorting.

Local Open Scope Z_scope.

(** ** Slices *)

Section Slices.
Context {A : Type}.

(** [len(s)] *)
Definition len (s : list A) : Z := Z.of_nat (length s).

(** [s[i]]: panics when [i] is out of range. *)
Definition index (s : list A) (i : Z) : option A :=
  if bool_decide (0 ≤ i) then s !! Z.to_nat i else None.

(** [s[lo:hi]]: panics unless [0 <= lo <= hi <= cap(s)]. *)
Definition slice (s : list A) (lo hi : Z) : option (list A) :=
  if bool_decide (0 ≤ lo ∧ lo ≤ hi ∧ hi ≤ len s)
  then Some (take (Z.to_nat (hi - lo)) (drop (Z.to_nat lo) s))
  else None.

(** [s[i] = x]: panics when [i] is out of range. *)
Definition store (s : list A) (i : Z) (x : A) : option (list A) :=
  if bool_decide (0 ≤ i ∧ i < len s) then Some (<[Z.to_nat i := x]> s) else None.

(** The builtin [copy(dst, src)]: the first [min(len(dst), len(src))]
    cells of [dst] are overwritten, with memmove semantics. *)
Definition copy (dst src : list A) : list A :=
  let n := Nat.min (length dst) (length src) in
  take n src ++ drop n dst.
End Slices.

(** [strings.Join(elems, sep)], written as the library does it: the first
    element, then separator and element for each of the others. *)
Definition Join (elems : list string) (sep : string) : string :=
  match elems with
  | [] => ""
  | e :: rest => fold_left (λ b s, (b +:+ sep) +:+ s) rest e
  end.

(** ** Prefix *)

(** [type Prefix []string] *)
Definition Prefix := list string.

(** [make(Prefix, n)]: [n] empty strings; panics when [n] is negative. *)
Definition make (n : Z) : option Prefix :=
  if bool_decide (0 ≤ n) then Some (replicate (Z.to_nat n) "") else None.

(** [func (p Prefix) String() string] *)
Definition Prefix_String (p : Prefix) : string := Join p " ".

(** [func (p Prefix) Shift(word string)].  The slice is updated in place:
    the result is the new content of the caller's [p]. *)
Definition Prefix_Shift (p : Prefix) (word : string) : option Prefix :=
  tail ← slice p 1 (len p);
  store (copy p tail) (len p - 1) word.

(** ** Chain *)

(** [sync.Map], with the three methods the program calls.  The stored
    values are [[]string]; [Load] returns [nil] ([None]) for a missing key. *)
Abbreviation syncMap := (gmap string (list string)).

Definition Load (m : syncMap) (key : string) : option (list string) := m !! key.

Definition Delete (m : syncMap) (key : string) : syncMap := delete key m.

(** [actual, loaded = m.LoadOrStore(key, value)] *)
Definition LoadOrStore (m : syncMap) (key : string) (value : list string)
  : syncMap * list string * bool :=
  match m !! key with
  | Some actual => (m, actual, true)
  | None => (<[key := value]> m, value, false)
  end.

(** [type Chain struct { chain sync.Map; prefixLen int }] *)
Record Chain := { chain : syncMap; prefixLen : Z }.

Definition NewChain (prefixLen : Z) : Chain := {| chain := ∅; prefixLen := prefixLen |}.

(** [append(values.([]string), word)], or [append(make([]string, 0), word)]
    when [values] is [nil]. *)
Definition append_word (values : option (list string)) (word : string) : list string :=
  match values with
  | None => [] ++ [word]
  | Some vs => vs ++ [word]
  end.

(** The [for notStored] loop of [Insert], run by one goroutine with no
    other writer.  [fuel] bounds the iterations; [None] is fuel exhausted. *)
Fixpoint Insert_loop (fuel : nat) (m : syncMap) (key word : string)
    (values : option (list string)) : option syncMap :=
  match fuel with
  | O => None
  | S fuel =>
      let values := append_word values word in
      let m := Delete m key in
      let '(m, actual, notStored) := LoadOrStore m key values in
      if notStored : bool then Insert_loop fuel m key word (Some actual) else Some m
  end.

(** [func (c *Chain) Insert(key, word string)].  One iteration always
    stores ([Insert_loop_once] below), so one unit of fuel is enough. *)
Definition Insert (c : Chain) (key word : string) : Chain :=
  let values := Load (chain c) key in
  {| chain := default (chain c) (Insert_loop 1 (chain c) key word values);
     prefixLen := prefixLen c |}.

Arguments Insert : simpl never.

(** [type pair struct { a, b string }]: a key and the word to insert. *)
Record WorkItem := pair_of { pair_a : string; pair_b : string }.

(** [ch <- pair{key, word}] *)
Definition send (ch : list WorkItem) (key word : string) : list WorkItem :=
  ch ++ [pair_of key word].

(** ** The rolling scan

    [for _, word := range words { key := p.String(); emit(key, word);
    p.Shift(word) }], where [emit] is [c.Insert] or a channel send. *)
Section Scan.
Context {S : Type} (emit : S → string → string → S).

Fixpoint scan (st : S) (p : Prefix) (words : list string) : option (S * Prefix) :=
  match words with
  | [] => Some (st, p)
  | word :: words =>
      let key := Prefix_String p in
      let st := emit st key word in
      p ← Prefix_Shift p word;
      scan st p words
  end.
End Scan.

(** ** Build *)

(** The inserts of concurrent goroutines take effect in an order the
    run-time picks.  A goroutine is the list of the items it inserts or
    sends, in program order; a scheduler merges the goroutines' lists into
    the order of effect.  Concurrent [Insert] calls are taken to be
    serialised here; the steps of [Insert] itself are interleaved further
    down, under "Concurrent calls of Insert". *)
Definition scheduler := list (list WorkItem) → list WorkItem.

(** Every item published is inserted, exactly once. *)
Definition complete (sched : scheduler) : Prop := ∀ gs, sched gs ≡ₚ concat gs.

(** Each goroutine runs to its end before the next starts. *)
Definition one_by_one : scheduler := λ gs, concat gs.

(** The goroutine spawned last runs first. *)
Definition last_first : scheduler := λ gs, concat (reverse gs).

(** The inserts of one consumer, or of the callers of [Insert], in order. *)
Definition run (c : Chain) (items : list WorkItem) : Chain :=
  fold_left (λ c it, Insert c (pair_a it) (pair_b it)) items c.

Arguments run : simpl never.

(** [perWorker := len(words) / workers; if len(words)%workers != 0 { perWorker++ }] *)
Definition perWorker (n workers : Z) : Z :=
  let q := Z.quot n workers in
  if bool_decide (Z.rem n workers ≠ 0) then q + 1 else q.

(** [start := perWorker * i; end := min(perWorker*(i+1), len(words))] *)
Definition segment (n perWorker i : Z) : Z * Z :=
  (perWorker * i, Z.min (perWorker * (i + 1)) n).

(** The segments handed to the workers [0 .. workers-1]. *)
Definition segments (n workers : Z) : list (Z * Z) :=
  segment n (perWorker n workers) <$> seqZ 0 workers.

Section Build.
Variable sched : scheduler.

(** [case 1] of [Build]: the sequential scan. *)
Definition BuildSeq (c : Chain) (words : list string) : option Chain :=
  p ← make (prefixLen c);
  r ← scan Insert c p words;
  Some r.1.

(** The goroutine of [BuildGo*] for position [idx]:
    [key := strings.Join(words[idx-c.prefixLen:idx], " ")], then the
    insert or send of [(key, words[idx])]. *)
Definition go_word (c : Chain) (words : list string) (idx : Z) : option (list WorkItem) :=
  window ← slice words (idx - prefixLen c) idx;
  word ← index words idx;
  Some [pair_of (Join window " ") word].

(** The goroutines spawned by [for idx := c.prefixLen; idx < len(words); idx++]. *)
Definition go_words (c : Chain) (words : list string) : option (list (list WorkItem)) :=
  mapM (go_word c words) (seqZ (prefixLen c) (len words - prefixLen c)).

(** The consumers of a channel of capacity [capacity] holding, over the
    build, the items [ch] in order of arrival: [inserters] goroutines
    each running [for p := range ch { c.Insert(p.a, p.b) }], then
    [wg.Add(inserters); close(ch); wg.Wait()].  A negative [inserters]
    makes the WaitGroup counter negative; with no consumer the producers
    block for ever once the channel is full. *)
Definition drain (capacity inserters : Z) (c : Chain) (ch : list WorkItem) : option Chain :=
  if bool_decide (inserters < 0) then None
  else if bool_decide (inserters = 0) then
    if bool_decide (len ch ≤ capacity) then Some c else None
  else if bool_decide (inserters = 1) then Some (run c ch)
  else Some (run c (sched ((λ it, [it]) <$> ch))).

Definition BuildGoLock (c : Chain) (words : list string) : option Chain :=
  p ← make (prefixLen c);
  seed ← slice words 0 (prefixLen c);
  r ← scan Insert c p seed;
  gs ← go_words c words;
  Some (run r.1 (sched gs)).

(** The seed loop sends before any receiver exists: more than 8 sends
    block the only goroutine, which the run-time reports as a deadlock. *)
Definition BuildGoChannels (c : Chain) (words : list string) (inserters : Z) : option Chain :=
  p ← make (prefixLen c);
  seed ← slice words 0 (prefixLen c);
  r ← scan send [] p seed;
  if bool_decide (len r.1 ≤ 8) then
    gs ← go_words c words;
    drain 8 inserters c (r.1 ++ sched gs)
  else None.

Definition BuildGoChannel (c : Chain) (words : list string) : option Chain :=
  BuildGoChannels c words 1.

Definition BuildGo (c : Chain) (words : list string) (inserters : Z) : option Chain :=
  if bool_decide (inserters = 0) then BuildGoLock c words
  else if bool_decide (inserters = 1) then BuildGoChannel c words
  else BuildGoChannels c words inserters.

(** [for idx := 0; idx < c.prefixLen; idx++ { p[idx] = words[start+idx-c.prefixLen] }] *)
Fixpoint context_loop (c : Chain) (words : list string) (start : Z)
    (idxs : list Z) (p : Prefix) : option Prefix :=
  match idxs with
  | [] => Some p
  | idx :: idxs =>
      word ← index words (start + idx - prefixLen c);
      p ← store p idx word;
      context_loop c words start idxs p
  end.

(** The prefix a worker starts from. *)
Definition worker_prefix (c : Chain) (words : list string) (start : Z) : option Prefix :=
  p ← make (prefixLen c);
  if bool_decide (start ≠ 0)
  then context_loop c words start (seqZ 0 (prefixLen c)) p
  else Some p.

(** The worker goroutine [go func(words []string, start, end int)] of
    [BuildTP*]: the items it inserts or sends. *)
Definition worker (c : Chain) (words : list string) (se : Z * Z) : option (list WorkItem) :=
  p ← worker_prefix c words se.1;
  seg ← slice words se.1 se.2;
  r ← scan send [] p seg;
  Some r.1.

(** [wg.Add(workers)] panics for a negative count, the division for
    zero; then one goroutine per segment. *)
Definition workers_of (c : Chain) (words : list string) (workers : Z)
  : option (list (list WorkItem)) :=
  if bool_decide (0 < workers)
  then mapM (worker c words) (segments (len words) workers)
  else None.

Definition BuildTPLock (c : Chain) (words : list string) (workers : Z) : option Chain :=
  gs ← workers_of c words workers;
  Some (run c (sched gs)).

Definition BuildTPChannels (c : Chain) (words : list string) (workers inserters : Z)
  : option Chain :=
  gs ← workers_of c words workers;
  drain workers inserters c (sched gs).

Definition BuildTPChannel (c : Chain) (words : list string) (workers : Z) : option Chain :=
  BuildTPChannels c words workers 1.

Definition BuildTP (c : Chain) (words : list string) (workers inserters : Z) : option Chain :=
  if bool_decide (inserters = 0) then BuildTPLock c words workers
  else if bool_decide (inserters = 1) then BuildTPChannel c words workers
  else BuildTPChannels c words workers inserters.

(** [func (c *Chain) Build(words []string, workers, inserters int)] *)
Definition Build (c : Chain) (words : list string) (workers inserters : Z) : option Chain :=
  if bool_decide (workers = 1) then BuildSeq c words
  else if bool_decide (workers = 0) then BuildGo c words inserters
  else BuildTP c words workers inserters.
End Build.

(** ** Generate *)

Section Generate.
(** The raw draws of the random source, one per call. *)
Variable rng : nat → Z.

(** [rand.Intn(n)] at the [i]-th call: a value in [0, n); panics when
    [n <= 0]. *)
Definition Intn (i : nat) (n : Z) : option Z :=
  if bool_decide (0 < n) then Some (rng i `mod` n) else None.

(** The body of [for i := 0; i < n; i++], with [todo] iterations left. *)
Fixpoint Generate_loop (c : Chain) (todo i : nat) (p : Prefix) (words : list string)
  : option (list string) :=
  match todo with
  | O => Some words
  | S todo =>
      match Load (chain c) (Prefix_String p) with
      | None => Some words
      | Some choices =>
          k ← Intn i (len choices);
          next ← index choices k;
          let words := words ++ [next] in
          p ← Prefix_Shift p next;
          Generate_loop c todo (S i) p words
      end
  end.

(** The words [Generate] has collected when its loop ends. *)
Definition Generate_words (c : Chain) (n : Z) : option (list string) :=
  p ← make (prefixLen c);
  Generate_loop c (Z.to_nat n) 0 p [].

(** [func (c *Chain) Generate(n int) string] *)
Definition Generate (c : Chain) (n : Z) : option string :=
  words ← Generate_words c n;
  Some (Join words " ").
End Generate.

(** The number of insertions a table holds: the stored words, over all keys. *)
Definition total (c : Chain) : Z :=
  map_fold (λ _ (vs : list string) n, len vs + n) 0 (chain c).

(** The successors stored for a key ([nil] when the key is absent). *)
Definition successors (c : Chain) (key : string) : list string :=
  default [] (Load (chain c) key).

(** ** Concurrent calls of Insert

    [Insert] makes three calls on the shared map, each atomic on its own:
    [Load], then in the loop [Delete] and [LoadOrStore].  A goroutine
    inside [Insert] is at one of these calls, or has returned. *)
Inductive insert_pc :=
| AtLoad
| AtDelete (values : option (list string))
| AtLoadOrStore (values : list string)
| Returned.

Record inserting := { ins_key : string; ins_word : string; ins_pc : insert_pc }.

(** A goroutine about to run [c.Insert(key, word)]. *)
Definition calling (key word : string) : inserting :=
  {| ins_key := key; ins_word := word; ins_pc := AtLoad |}.

(** The next atomic step of a goroutine inside [Insert]. *)
Definition insert_step (m : syncMap) (g : inserting) : syncMap * inserting :=
  let goto pc := {| ins_key := ins_key g; ins_word := ins_word g; ins_pc := pc |} in
  match ins_pc g with
  | AtLoad => (m, goto (AtDelete (Load m (ins_key g))))
  | AtDelete values =>
      (Delete m (ins_key g), goto (AtLoadOrStore (append_word values (ins_word g))))
  | AtLoadOrStore values =>
      let '(m', actual, notStored) := LoadOrStore m (ins_key g) values in
      (m', goto (if notStored : bool then AtDelete (Some actual) else Returned))
  | Returned => (m, g)
  end.

(** The goroutines take their steps in the order a schedule names them. *)
Fixpoint interleave (schedule : list nat) (m : syncMap) (gs : list inserting)
  : syncMap * list inserting :=
  match schedule with
  | [] => (m, gs)
  | i :: schedule =>
      match gs !! i with
      | None => interleave schedule m gs
      | Some g =>
          let '(m', g') := insert_step m g in
          interleave schedule m' (<[i := g']> gs)
      end
  end.

(** ** Notions used to state the properties *)

(** The words sent to [key], in order. *)
Definition sent_to (key : string) (items : list WorkItem) : list string :=
  pair_b <$> filter (λ it, pair_a it = key) items.

(** The prefix window once the words [ws] have been shifted in. *)
Definition roll (p : Prefix) (ws : list string) : Prefix := drop (length ws) (p ++ ws).

(** The (key, word) pairs of the strict sequential scan from prefix [p]. *)
Fixpoint seq_items (p : Prefix) (ws : list string) : list WorkItem :=
  match ws with
  | [] => []
  | w :: ws => pair_of (Prefix_String p) w :: seq_items (drop 1 p ++ [w]) ws
  end.

(** Where no strategy panics or deadlocks: [prefixLen >= 1]; for the
    goroutine-per-word builds at least [prefixLen] words, and at most 8
    seed sends before the consumers start; for the partitioned builds
    every segment after the first starts at an index from [prefixLen] to
    [len(words)]. *)
Definition Build_ok (prefixLen n workers inserters : Z) : Prop :=
  1 ≤ prefixLen
  ∧ (workers = 1
     ∨ (workers = 0 ∧ prefixLen ≤ n ∧ (inserters = 0 ∨ (0 < inserters ∧ prefixLen ≤ 8)))
     ∨ (1 < workers ∧ 0 ≤ inserters
        ∧ (n = 0 ∨ (prefixLen ≤ perWorker n workers
                    ∧ perWorker n workers * (workers - 1) ≤ n)))).

(** Two tables hold, key by key, the same successors as multisets. *)
Definition same_successors (c1 c2 : Chain) : Prop :=
  ∀ key, match Load (chain c1) key, Load (chain c2) key with
         | Some v1, Some v2 => v1 ≡ₚ v2
         | None, None => True
         | _, _ => False
         end.

(** A table some build has returned. *)
Definition built (c : Chain) : Prop :=
  ∃ sched words workers inserters,
    complete sched
    ∧ Build sched (NewChain (prefixLen c)) words workers inserters = Some c.

(** ** The comparison of the correctness test

    [sort.Slice(v, func(i, j int) bool { return v[i] < v[j] })] on a
    [[]string].  The library's sort is not stable, but [<] on strings is a
    total order, so the result is the one sorted permutation of [v]
    ([sort_Slice_unique] below), whatever the algorithm. *)
Definition sort_Slice (v : list string) : list string := merge_sort String.le v.

(** [func Equal(m1, m2 map[string][]string) bool]: for every key of [m1]
    the slices [m1[k]] and [m2[k]] are sorted in place, then the maps are
    compared with [reflect.DeepEqual].  The result only is kept.  Values
    are non-nil slices, as the tables that are compared hold them. *)
Definition Equal (m1 m2 : syncMap) : bool :=
  let m1' := sort_Slice <$> m1 in
  let m2' := map_imap (λ k v2, Some (if m1 !! k is Some _ then sort_Slice v2 else v2)) m2 in
  bool_decide (m1' = m2').

(** ** Further notions used to state properties *)

(** The inputs on which [Build] returns. *)
Definition Build_returns (prefixLen n workers inserters : Z) : Prop :=
  0 ≤ prefixLen
  ∧ ((workers = 1 ∧ (1 ≤ prefixLen ∨ n = 0))
     ∨ (workers = 0 ∧ prefixLen ≤ n ∧ (inserters = 0 ∨ (0 < inserters ∧ prefixLen ≤ 8)))
     ∨ (1 < workers ∧ 0 ≤ inserters
        ∧ (n = 0 ∨ (1 ≤ prefixLen ∧ prefixLen ≤ perWorker n workers
                    ∧ perWorker n workers * (workers - 1) ≤ n)))).

(** A string without a space, as every word [strings.Fields] yields and
    the empty string of a fresh Prefix. *)
Fixpoint no_space (s : string) : bool :=
  match s with
  | EmptyString => true
  | String a s => negb (Ascii.eqb a " "%char) && no_space s
  end.

(** The schedule in which the goroutines [k .. k+n-1] run [Insert] one
    after the other, three steps each. *)
Definition serial (k n : nat) : list nat := concat ((λ i, [i; i; i]) <$> seq k n).

(** The goroutine that is about to insert a work item, and the one that
    has returned from inserting it. *)
Definition calling_item (it : WorkItem) : inserting := calling (pair_a it) (pair_b it).

Definition returned (it : WorkItem) : inserting :=
  {| ins_key := pair_a it; ins_word := pair_b it; ins_pc := Returned |}.

(** The steps a schedule gives goroutine [i]. *)
Definition steps_of (i : nat) (schedule : list nat) : nat :=
  length (filter (λ j, j = i) schedule).

(** Where a goroutine of [Insert] is after [n] steps, and what its key
    then maps to, when no other goroutine touches the key: [values] is
    what the key mapped to at the call. *)
Definition pc_after (values : option (list string)) (word : string) (n : nat) : insert_pc :=
  match n with
  | 0%nat => AtLoad
  | 1%nat => AtDelete values
  | 2%nat => AtLoadOrStore (append_word values word)
  | _ => Returned
  end.

Definition value_after (values : option (list string)) (word : string) (n : nat)
  : option (list string) :=
  match n with
  | 0%nat | 1%nat => values
  | 2%nat => None
  | _ => Some (append_word values word)
  end.

(** [BuildGoLock] with the calls of its goroutines taken apart: the seed
    loop runs alone, then the goroutine of each later word makes its one
    call of [Insert], and the [Load], [Delete] and [LoadOrStore] steps of
    these calls take turns as the schedule says.  [wg.Wait()] returns
    once every goroutine has returned; [None] is a panic, or a schedule
    that ends before that. *)
Definition has_returned (g : inserting) : bool :=
  match ins_pc g with
  | Returned => true
  | _ => false
  end.

Definition BuildGoLock_steps (schedule : list nat) (c : Chain) (words : list string)
  : option Chain :=
  p ← make (prefixLen c);
  seed ← slice words 0 (prefixLen c);
  r ← scan Insert c p seed;
  gs ← go_words c words;
  let '(m, gs') := interleave schedule (chain r.1) (calling_item <$> concat gs) in
  if forallb has_returned gs' then Some {| chain := m; prefixLen := prefixLen r.1 |}
  else None.

(** ** The test corpus of the repository

    The ten words whose scan with [prefixLen = 2] gives the table of the
    correctness test (the test reads them from simple.txt); the table
    [simple_table] that the sequential scan of these words stores; and
    [var correct], the table the test compares with, which lists the
    successors of "I am" in the other order. *)

Definition simple : list string :=
  ["I"; "am"; "not"; "a"; "number!"; "I"; "am"; "a"; "free"; "man!"].

Definition simple_table : gmap string (list string) :=
  list_to_map
    [(" ", ["I"]); (" I", ["am"]); ("I am", ["not"; "a"]); ("a free", ["man!"]);
     ("am a", ["free"]); ("am not", ["a"]); ("a number!", ["I"]);
     ("number! I", ["am"]); ("not a", ["number!"])].

Definition correct : gmap string (list string) :=
  list_to_map
    [(" ", ["I"]); (" I", ["am"]); ("I am", ["a"; "not"]); ("a free", ["man!"]);
     ("am a", ["free"]); ("am not", ["a"]); ("a number!", ["I"]);
     ("number! I", ["am"]); ("not a", ["number!"])].

(** [RunTest(t, workers, inserters)]: [true] when the test passes.  The
    words stand for [FileAsWords("simple.txt")]. *)
Definition RunTest (build : Chain → list string → option Chain) (words : list string)
  : option bool :=
  c ← build (NewChain 2) words;
  Some (Equal (chain c) correct).

(** ** Facts on slices and Prefix *)

Lemma len_nonneg {A} (s : list A) : 0 ≤ len s.
Proof. unfold len. lia. Qed.

Lemma len_app {A} (s t : list A) : len (s ++ t) = len s + len t.
Proof. unfold len. rewrite length_app. lia. Qed.

Lemma len_cons {A} (x : A) (s : list A) : len (x :: s) = 1 + len s.
Proof. unfold len. simpl length. lia. Qed.

Lemma slice_full_tail {A} (x : A) (s : list A) :
  slice (x :: s) 1 (len (x :: s)) = Some s.
Proof.
  unfold slice. rewrite bool_decide_eq_true_2.
  - rewrite len_cons. replace (1 + len s - 1) with (len s) by lia.
    unfold len. rewrite Nat2Z.id. simpl. by rewrite take_ge.
  - rewrite len_cons. pose proof (len_nonneg s). lia.
Qed.

Lemma copy_tail {A} (x : A) (s : list A) :
  copy (x :: s) s = s ++ drop (length s) (x :: s).
Proof.
  unfold copy. simpl length. rewrite Nat.min_r by lia. by rewrite take_ge.
Qed.

Lemma string_app_assoc (s1 s2 s3 : string) :
  (s1 +:+ s2) +:+ s3 = s1 +:+ s2 +:+ s3.
Proof.
  induction s1 as [|a s1 IH]; [done|].
  change (String a ((s1 +:+ s2) +:+ s3) = String a (s1 +:+ s2 +:+ s3)).
  by f_equal.
Qed.

Lemma Join_fold_left_app (b e sep : string) rest :
  fold_left (λ b s, (b +:+ sep) +:+ s) rest (b +:+ e)
  = b +:+ fold_left (λ b s, (b +:+ sep) +:+ s) rest e.
Proof.
  revert e. induction rest as [|e' rest IH]; intros e; simpl; [done|].
  rewrite <- IH. by rewrite !string_app_assoc.
Qed.

Lemma Join_cons_cons e1 e2 rest sep :
  Join (e1 :: e2 :: rest) sep = e1 +:+ sep +:+ Join (e2 :: rest) sep.
Proof.
  simpl. rewrite string_app_assoc.
  by rewrite !Join_fold_left_app.
Qed.

Lemma Join_concat elems sep : Join elems sep = String.concat sep elems.
Proof.
  induction elems as [|e1 [|e2 rest] IH]; [done..|].
  rewrite Join_cons_cons, IH. done.
Qed.

Lemma drop_length_cons {A} (x : A) (s : list A) :
  ∃ y, drop (length s) (x :: s) = [y].
Proof.
  revert x. induction s as [|y s IH]; intros x; [by exists x|].
  exact (IH y).
Qed.

Lemma Prefix_Shift_cons x (p : Prefix) word :
  Prefix_Shift (x :: p) word = Some (p ++ [word]).
Proof.
  unfold Prefix_Shift. rewrite slice_full_tail. simpl.
  rewrite copy_tail. destruct (drop_length_cons x p) as [y ->]. unfold store.
  rewrite bool_decide_eq_true_2
    by (rewrite len_app, !len_cons; pose proof (len_nonneg p); unfold len; simpl; lia).
  f_equal. rewrite len_cons. replace (1 + len p - 1) with (len p) by lia.
  unfold len. rewrite Nat2Z.id.
  rewrite insert_app_r_alt by lia. by rewrite Nat.sub_diag.
Qed.

Lemma Prefix_Shift_nil word : Prefix_Shift [] word = None.
Proof. reflexivity. Qed.

(** ** Insert *)

Lemma Insert_loop_once fuel (m : syncMap) key word :
  Insert_loop (S fuel) m key word (Load m key)
  = Some (<[key := default [] (m !! key) ++ [word]]> m).
Proof.
  simpl. unfold LoadOrStore, Delete, Load.
  rewrite lookup_delete_eq. rewrite insert_delete_eq.
  by destruct (m !! key).
Qed.

Lemma chain_Insert c key word :
  chain (Insert c key word) = <[key := successors c key ++ [word]]> (chain c).
Proof. unfold Insert. by rewrite Insert_loop_once. Qed.

Lemma prefixLen_Insert c key word : prefixLen (Insert c key word) = prefixLen c.
Proof. done. Qed.

Lemma successors_Insert c key word k :
  successors (Insert c key word) k
  = if decide (key = k) then successors c k ++ [word] else successors c k.
Proof.
  unfold successors at 1. unfold Load. rewrite chain_Insert, lookup_insert.
  by case_decide; subst.
Qed.

Lemma Load_Insert_eq c key word :
  Load (chain (Insert c key word)) key = Some (successors c key ++ [word]).
Proof. unfold Load. by rewrite chain_Insert, lookup_insert_eq. Qed.

Lemma Load_Insert_ne c key word k :
  k ≠ key → Load (chain (Insert c key word)) k = Load (chain c) k.
Proof. intros Hne. unfold Load. rewrite chain_Insert. by rewrite lookup_insert_ne. Qed.

(** C7. [Insert] appends the word to the collection stored at the key, or
    stores a one-element collection when the key was absent: looking the
    key up afterwards gives the prior collection (or the empty one)
    followed by exactly one occurrence of the word.  The loop of [Insert]
    ends in its first iteration, whatever the fuel. *)
Theorem Insert_appends (c : Chain) (key word : string) :
  Load (chain (Insert c key word)) key
  = Some (match Load (chain c) key with
          | None => [word]
          | Some values => values ++ [word]
          end)
  ∧ successors (Insert c key word) key = successors c key ++ [word]
  ∧ (∀ fuel, Insert_loop (S fuel) (chain c) key word (Load (chain c) key)
             = Some (chain (Insert c key word))).
Proof.
  split_and!.
  - rewrite Load_Insert_eq. unfold successors. by destruct (Load (chain c) key).
  - rewrite successors_Insert. by rewrite decide_True.
  - intros fuel. by rewrite Insert_loop_once, chain_Insert.
Qed.

(** C10. [Insert] at a key leaves the collection of every other key as it
    was. *)
Theorem Insert_frame (c : Chain) (k k' w : string) :
  k' ≠ k → Load (chain (Insert c k w)) k' = Load (chain c) k'.
Proof.
  apply Load_Insert_ne.
Qed.

Lemma Insert_frame_witness :
  "am a" ≠ "I am"
  ∧ Load (chain (Insert (Insert (NewChain 2) "am a" "free") "I am" "not")) "am a"
    = Load (chain (Insert (NewChain 2) "am a" "free")) "am a".
Proof.
  split; [discriminate|]. apply (Insert_frame _ "I am" "am a" "not"). discriminate.
Defined.

(** ** Prefix *)

(** C9, counterexample.  The Prefix made for [prefixLen = 0] has length
    [prefixLen], and [Shift] on it panics at [p[1:]]: nothing is dropped or
    appended. *)
Lemma Shift_empty_prefix_panics :
  make 0 = Some [] ∧ len ([] : Prefix) = 0
  ∧ ¬ ∃ p', Prefix_Shift [] "w" = Some p'.
Proof. split_and!; [done..|]. intros [p' H]. discriminate H. Qed.

(** C9, amended.  For a Prefix of length [prefixLen >= 1] (the "one or more
    words" of the type's comment): [String] is the words joined by one
    space; [Shift] drops the word at index 0 and appends the new word at
    the end of the same slice; the length is [prefixLen] before and after. *)
Theorem Prefix_String_Shift (prefixLen : Z) (p : Prefix) (w : string) :
  1 ≤ prefixLen → len p = prefixLen →
  Prefix_String p = String.concat " " p
  ∧ Prefix_Shift p w = Some (drop 1 p ++ [w])
  ∧ len (drop 1 p ++ [w]) = prefixLen.
Proof.
  intros Hpos Hlen. split_and!.
  - apply Join_concat.
  - destruct p as [|x p]; [unfold len in Hlen; simpl in Hlen; lia|].
    apply Prefix_Shift_cons.
  - destruct p as [|x p]; [unfold len in Hlen; simpl in Hlen; lia|].
    unfold len in *. simpl in *. rewrite drop_0, length_app. simpl. lia.
Qed.

Lemma Prefix_String_Shift_witness :
  Prefix_String ["I"; "am"] = "I am"
  ∧ Prefix_Shift ["I"; "am"] "not" = Some ["am"; "not"]
  ∧ len ["am"; "not"] = 2.
Proof. apply (Prefix_String_Shift 2 ["I"; "am"] "not"); [lia | reflexivity]. Defined.

(** ** Runs of inserts *)

Lemma run_app c items1 items2 : run c (items1 ++ items2) = run (run c items1) items2.
Proof. apply fold_left_app. Qed.

Lemma prefixLen_run c items : prefixLen (run c items) = prefixLen c.
Proof.
  revert c. induction items as [|it items IH]; intros c; [done|].
  change (run c (it :: items)) with (run (Insert c (pair_a it) (pair_b it)) items).
  by rewrite IH.
Qed.

Lemma run_cons c it items :
  run c (it :: items) = run (Insert c (pair_a it) (pair_b it)) items.
Proof. done. Qed.

Lemma sent_to_cons key k w items :
  sent_to key (pair_of k w :: items)
  = if decide (k = key) then w :: sent_to key items else sent_to key items.
Proof. unfold sent_to. rewrite filter_cons. simpl. by case_decide. Qed.

Lemma successors_run c items key :
  successors (run c items) key = successors c key ++ sent_to key items.
Proof.
  revert c. induction items as [|[k w] items IH]; intros c.
  { unfold sent_to. simpl. by rewrite app_nil_r. }
  rewrite run_cons, IH, successors_Insert, sent_to_cons. cbn [pair_a pair_b].
  case_decide; [|done]. by rewrite <- app_assoc.
Qed.

Lemma Load_run c items key :
  Load (chain (run c items)) key
  = match sent_to key items with
    | [] => Load (chain c) key
    | _ => Some (successors c key ++ sent_to key items)
    end.
Proof.
  revert c. induction items as [|[k w] items IH]; intros c; [reflexivity|].
  rewrite run_cons, IH, successors_Insert, sent_to_cons. cbn [pair_a pair_b].
  case_decide as Hk.
  - subst k. rewrite <- app_assoc. cbn [app].
    destruct (sent_to key items) eqn:E; [|done].
    rewrite Load_Insert_eq. unfold successors. by destruct (Load (chain c) key).
  - destruct (sent_to key items); [|done].
    by apply Load_Insert_ne.
Qed.

Lemma total_Insert c key word : total (Insert c key word) = total c + 1.
Proof.
  unfold total. rewrite chain_Insert. unfold successors, Load.
  set (f := λ (_ : string) (vs : list string) (n : Z), len vs + n).
  assert (∀ (m : syncMap) j1 j2 z1 z2 y,
    j1 ≠ j2 → m !! j1 = Some z1 → m !! j2 = Some z2 →
    f j1 z1 (f j2 z2 y) = f j2 z2 (f j1 z1 y)) as Hcomm
    by (intros; unfold f; lia).
  destruct (chain c !! key) as [vs|] eqn:E; simpl.
  - rewrite (map_fold_delete_L f 0 key (vs ++ [word]) (<[key:=vs ++ [word]]> (chain c)));
      [|by apply Hcomm|by rewrite lookup_insert_eq].
    rewrite delete_insert_eq.
    rewrite (map_fold_delete_L f 0 key vs (chain c)); [|by apply Hcomm|done].
    unfold f. rewrite len_app. unfold len at 2. simpl. lia.
  - rewrite map_fold_insert_L; [|by apply Hcomm|done]. unfold f at 1.
    unfold len at 1. simpl. lia.
Qed.

Lemma total_run c items : total (run c items) = total c + len items.
Proof.
  revert c. induction items as [|it items IH]; intros c.
  { unfold len. simpl. change (run c []) with c. lia. }
  rewrite run_cons, IH, total_Insert, len_cons. lia.
Qed.

Lemma total_NewChain pl : total (NewChain pl) = 0.
Proof. done. Qed.

(** The scan with any [emit] does what the scan that records its items
    does, followed by the emits in order. *)
Lemma scan_emit {S} (emit : S → string → string → S) st p words :
  scan emit st p words
  = r ← scan send [] p words;
    Some (fold_left (λ st it, emit st (pair_a it) (pair_b it)) r.1 st, r.2).
Proof.
  assert (∀ ch st,
    scan emit (fold_left (λ st it, emit st (pair_a it) (pair_b it)) ch st) p words
    = r ← scan send ch p words;
      Some (fold_left (λ st it, emit st (pair_a it) (pair_b it)) r.1 st, r.2)) as H;
    [|exact (H [] st)].
  revert p. induction words as [|w words IH]; intros p ch st'; [done|].
  simpl. destruct (Prefix_Shift p w) as [p'|]; [|done]. simpl.
  rewrite <- IH. unfold send. rewrite fold_left_app. done.
Qed.

Lemma scan_Insert c p words :
  scan Insert c p words = r ← scan send [] p words; Some (run c r.1, r.2).
Proof. apply scan_emit. Qed.

Lemma scan_send_len ch p words r :
  scan send ch p words = Some r → len r.1 = len ch + len words.
Proof.
  revert ch p. induction words as [|w words IH]; intros ch p H; simpl in H.
  { injection H as <-. unfold len. simpl. lia. }
  destruct (Prefix_Shift p w) as [p'|]; [|done]. simpl in H.
  apply IH in H. rewrite H. unfold send. rewrite len_app, !len_cons. unfold len. simpl. lia.
Qed.

(** ** Partition of the words among the workers *)

Lemma perWorker_ceil (n workers : Z) :
  0 ≤ n → 0 < workers →
  n ≤ perWorker n workers * workers ∧ perWorker n workers * workers < n + workers.
Proof.
  intros Hn Hw. unfold perWorker.
  rewrite Z.quot_div_nonneg, Z.rem_mod_nonneg by lia.
  pose proof (Z.div_mod n workers ltac:(lia)) as Hdm.
  pose proof (Z.mod_pos_bound n workers Hw) as Hb.
  case_bool_decide; nia.
Qed.

Lemma perWorker_nonneg (n workers : Z) :
  0 ≤ n → 0 < workers → 0 ≤ perWorker n workers.
Proof. intros Hn Hw. pose proof (perWorker_ceil n workers Hn Hw). nia. Qed.

Lemma index_segments (n workers i : Z) :
  0 ≤ i → i < workers →
  index (segments n workers) i = Some (segment n (perWorker n workers) i).
Proof.
  intros H0 Hi. unfold index, segments.
  rewrite bool_decide_eq_true_2 by done.
  rewrite list_lookup_fmap, lookup_seqZ_lt by lia.
  simpl. do 2 f_equal. lia.
Qed.

Lemma len_segments (n workers : Z) : 0 ≤ workers → len (segments n workers) = workers.
Proof.
  intros. unfold len, segments. rewrite length_fmap, length_seqZ. lia.
Qed.

(** C6, counterexample.  Five words and four workers: [perWorker] is 2 and
    the segments are [0,2), [2,4), [4,5) and the inverted (6,5).  The third
    segment is not the last and holds one word, not two. *)
Lemma segments_5_4_not_ceil_sized :
  perWorker 5 4 = 2
  ∧ segments 5 4 = [(0, 2); (2, 4); (4, 5); (6, 5)]
  ∧ ¬ (∀ i se, 0 ≤ i → i < 4 - 1 → index (segments 5 4) i = Some se →
               se.2 - se.1 = perWorker 5 4).
Proof.
  split_and!; [done..|]. intros H.
  specialize (H 2 (4, 5) ltac:(lia) ltac:(lia) eq_refl). discriminate H.
Qed.

(** C6, amended.  With [pw = ceil(n/W)] and [W > 0]: the segment of
    worker [i], when it starts at or before the end of the sequence, runs
    from [pw*i] to [min(pw*(i+1), n)] and so has [min(pw, n - pw*i)]
    words; every index [0..n-1] lies in exactly one segment; and whenever
    [pw*(W-1) <= n] the [W] segments are contiguous and non-overlapping,
    each of length [pw] but the last, which is truncated to the tokens
    that remain. *)
Theorem segments_partition (n W : Z) :
  0 ≤ n → 0 < W →
  let pw := perWorker n W in
  (n ≤ pw * W ∧ pw * W < n + W)
  ∧ len (segments n W) = W
  ∧ (∀ i, 0 ≤ i → i < W → pw * i ≤ n →
       index (segments n W) i = Some (pw * i, Z.min (pw * (i + 1)) n)
       ∧ Z.min (pw * (i + 1)) n - pw * i = Z.min pw (n - pw * i))
  ∧ (∀ idx, 0 ≤ idx → idx < n →
       ∃ i se, (0 ≤ i ∧ i < W ∧ index (segments n W) i = Some se
                ∧ se.1 ≤ idx ∧ idx < se.2)
               ∧ ∀ j se', 0 ≤ j → j < W → index (segments n W) j = Some se' →
                          se'.1 ≤ idx → idx < se'.2 → j = i)
  ∧ (pw * (W - 1) ≤ n →
       (∀ i, 0 ≤ i → i < W - 1 →
          index (segments n W) i = Some (pw * i, pw * i + pw)
          ∧ ∃ e, index (segments n W) (i + 1) = Some (pw * i + pw, e))
       ∧ index (segments n W) (W - 1) = Some (pw * (W - 1), n)).
Proof.
  intros Hn HW pw.
  pose proof (perWorker_ceil n W Hn HW) as Hceil. fold pw in Hceil.
  assert (0 ≤ pw) as Hpw by (apply perWorker_nonneg; lia).
  split_and!; try tauto.
  - apply len_segments. lia.
  - intros i H0 Hi Hstart. rewrite index_segments by done. split; [done|]. lia.
  - intros idx H0 Hidx.
    assert (0 < pw) as Hpos by nia.
    pose proof (Z.div_mod idx pw ltac:(lia)) as Hdm.
    pose proof (Z.mod_pos_bound idx pw Hpos) as Hb.
    assert (0 ≤ idx `div` pw) by (apply Z.div_pos; lia).
    assert (idx `div` pw < W) by nia.
    exists (idx `div` pw), (segment n pw (idx `div` pw)). split.
    + split_and!; [done|done|by apply index_segments| |]; unfold segment; simpl.
      * nia.
      * apply Z.min_glb_lt; nia.
    + intros j se' Hj0 HjW Hse' Hlo Hhi.
      rewrite index_segments in Hse' by done. injection Hse' as <-.
      unfold segment in Hlo, Hhi. fold pw in Hlo, Hhi. simpl in Hlo, Hhi.
      assert (idx < pw * (j + 1)) by lia. nia.
  - intros Hlast. split.
    + intros i H0 Hi. rewrite !index_segments by lia. unfold segment. fold pw.
      split.
      * f_equal. f_equal. rewrite Z.min_l by nia. lia.
      * eexists. f_equal. f_equal. lia.
    + rewrite index_segments by lia. unfold segment. fold pw.
      f_equal. f_equal. rewrite Z.min_r by nia. done.
Qed.

Lemma segments_partition_witness :
  (index (segments 10 4) 1 = Some (3, 6) ∧ 6 - 3 = Z.min 3 (10 - 3))
  ∧ (index (segments 10 4) 3 = Some (9, 10) ∧ 10 - 9 = Z.min 3 (10 - 9)).
Proof.
  destruct (segments_partition 10 4 ltac:(lia) ltac:(lia)) as (_ & _ & H & _).
  split; [apply (H 1); vm_compute; congruence | apply (H 3); vm_compute; congruence].
Defined.

(** ** What a build that returns has inserted *)

Lemma slice_Some {A} (s : list A) lo hi seg :
  slice s lo hi = Some seg →
  0 ≤ lo ∧ lo ≤ hi ∧ hi ≤ len s
  ∧ seg = take (Z.to_nat (hi - lo)) (drop (Z.to_nat lo) s)
  ∧ len seg = hi - lo.
Proof.
  unfold slice. case_bool_decide as H; [|done]. intros [= <-].
  split_and!; try tauto.
  unfold len in *. rewrite length_take, length_drop. lia.
Qed.

Lemma make_Some n p : make n = Some p → 0 ≤ n ∧ p = replicate (Z.to_nat n) "" ∧ len p = n.
Proof.
  unfold make. case_bool_decide; [|done]. intros [= <-].
  split_and!; [done..|]. unfold len. rewrite length_replicate. lia.
Qed.

Lemma len_complete sched gs : complete sched → len (sched gs) = len (concat gs).
Proof. intros H. unfold len. by rewrite (H gs). Qed.

Lemma len_concat_singletons {A} (l : list A) : len (concat ((λ x, [x]) <$> l)) = len l.
Proof.
  induction l as [|x l IH]; [done|].
  rewrite fmap_cons. cbn [concat app]. rewrite !len_cons. by rewrite IH.
Qed.

Lemma drain_inserts sched capacity inserters c ch c' :
  complete sched → inserters ≠ 0 →
  drain sched capacity inserters c ch = Some c' →
  0 < inserters ∧ ∃ items, c' = run c items ∧ items ≡ₚ ch.
Proof.
  intros Hs Hi. unfold drain.
  repeat case_bool_decide; try done; intros [= <-]; (split; [lia|]).
  - by exists ch.
  - eexists. split; [done|]. rewrite (Hs _).
    clear. induction ch as [|x ch IH]; [done|].
    rewrite fmap_cons. cbn [concat app]. by rewrite IH.
Qed.

Lemma go_word_len c words idx g : go_word c words idx = Some g → len g = 1.
Proof.
  unfold go_word. destruct (slice _ _ _); [|done]. simpl.
  destruct (index _ _); [|done]. by intros [= <-].
Qed.

Lemma len_concat_mapM {A} (f : A → option (list WorkItem)) (size : A → Z) l gs :
  (∀ x g, f x = Some g → len g = size x) →
  mapM f l = Some gs → len (concat gs) = foldr (λ x n, size x + n) 0 l.
Proof.
  intros Hf H. apply mapM_Some in H.
  induction H as [|x g l gs Hx _ IH]; [done|].
  simpl. rewrite len_app, IH. by rewrite (Hf _ _ Hx).
Qed.

Lemma go_words_len c words gs :
  go_words c words = Some gs → 0 ≤ prefixLen c → prefixLen c ≤ len words →
  len (concat gs) = len words - prefixLen c.
Proof.
  unfold go_words. intros H H0 Hle.
  rewrite (len_concat_mapM _ (λ _, 1) _ _ (go_word_len c words) H).
  assert (∀ l : list Z, foldr (λ _ n, 1 + n) 0 l = len l) as ->.
  { induction l as [|x l IH]; [done|]. simpl. rewrite IH, len_cons. done. }
  unfold len at 1. rewrite length_seqZ. lia.
Qed.

Lemma worker_Some c words se g :
  worker c words se = Some g →
  0 ≤ prefixLen c ∧ 0 ≤ se.1 ∧ se.1 ≤ se.2 ∧ se.2 ≤ len words ∧ len g = se.2 - se.1.
Proof.
  unfold worker, worker_prefix. intros H.
  destruct (make (prefixLen c)) as [p0|] eqn:Hmk; [|done]. simpl in H.
  apply make_Some in Hmk as (Hpl & _ & _).
  destruct (if bool_decide (se.1 ≠ 0) then _ else _) as [p|]; [|done]. simpl in H.
  destruct (slice words se.1 se.2) as [seg|] eqn:Hsl; [|done]. simpl in H.
  apply slice_Some in Hsl as (? & ? & ? & _ & Hlen).
  destruct (scan send [] p seg) as [r|] eqn:Hsc; [|done]. simpl in H.
  injection H as <-. apply scan_send_len in Hsc.
  split_and!; try done. rewrite Hsc, Hlen. unfold len. simpl. lia.
Qed.

(** The workers that all return have sent, between them, one item for
    each word: the segments they scanned are contiguous up to [n]. *)
Lemma workers_len c words pw (k : nat) gs :
  0 ≤ pw →
  mapM (worker c words) (segment (len words) pw <$> seqZ 0 (Z.of_nat k)) = Some gs →
  len (concat gs) = Z.min (pw * Z.of_nat k) (len words).
Proof.
  intros Hpw. revert gs. induction k as [|k IH]; intros gs H.
  { simpl in H. injection H as <-. pose proof (len_nonneg words).
    rewrite Z.min_l by lia. unfold len. simpl. lia. }
  rewrite seqZ_S, fmap_app in H. apply mapM_Some in H.
  apply Forall2_app_inv_l in H as (gs1 & gs2 & H1 & H2 & ->).
  apply mapM_Some, IH in H1.
  simpl in H2. apply Forall2_cons_inv_l in H2 as (g & gs' & Hg & Hnil & ->).
  apply Forall2_nil_inv_l in Hnil as ->.
  apply worker_Some in Hg as (_ & _ & Hle & _ & Hlen). simpl in Hle, Hlen.
  rewrite concat_app, len_app, H1. simpl. rewrite app_nil_r, Hlen. lia.
Qed.

Lemma workers_of_len c words workers gs :
  workers_of c words workers = Some gs →
  0 < workers ∧ 0 ≤ prefixLen c ∧ len (concat gs) = len words.
Proof.
  unfold workers_of. case_bool_decide as HW; [|done]. intros H.
  pose proof (len_nonneg words) as Hn.
  pose proof (perWorker_ceil _ _ Hn HW) as Hceil.
  pose proof (perWorker_nonneg _ _ Hn HW) as Hpw.
  split_and!; [done| |].
  - unfold segments in H. rewrite seqZ_cons in H by done. rewrite fmap_cons in H.
    apply mapM_Some, Forall2_cons_inv_l in H as (g & gs' & Hg & _ & _).
    by apply worker_Some in Hg as (? & _).
  - unfold segments in H. rewrite <- (Z2Nat.id workers) in H at 2 by lia.
    apply workers_len in H; [|done]. rewrite H, Z2Nat.id by lia. lia.
Qed.

(** ** The items of the sequential scan *)

Lemma roll_nil p : roll p [] = p.
Proof. unfold roll. simpl. by rewrite app_nil_r. Qed.

Lemma roll_cons x p w ws : roll (x :: p) (w :: ws) = roll (p ++ [w]) ws.
Proof. unfold roll. simpl. by rewrite <- app_assoc. Qed.

Lemma length_roll p ws : length (roll p ws) = length p.
Proof. unfold roll. rewrite length_drop, length_app. lia. Qed.

Lemma roll_app p ws1 ws2 : roll (roll p ws1) ws2 = roll p (ws1 ++ ws2).
Proof.
  unfold roll. rewrite <- drop_app_le by (rewrite length_app; lia).
  rewrite drop_drop, length_app, <- app_assoc. f_equal; lia.
Qed.

Lemma length_seq_items p ws : length (seq_items p ws) = length ws.
Proof. revert p. induction ws as [|w ws IH]; intros p; [done|]. simpl. by rewrite IH. Qed.

Lemma seq_items_app p ws1 ws2 :
  p ≠ [] → seq_items p (ws1 ++ ws2) = seq_items p ws1 ++ seq_items (roll p ws1) ws2.
Proof.
  revert p. induction ws1 as [|w ws1 IH]; intros p Hp.
  { by rewrite roll_nil. }
  destruct p as [|x p]; [done|]. simpl. rewrite drop_0.
  rewrite IH by (by destruct p). by rewrite roll_cons.
Qed.

Lemma seq_items_take p ws k :
  p ≠ [] → take k (seq_items p ws) = seq_items p (take k ws).
Proof.
  intros Hp. rewrite <- (take_drop k ws) at 1. rewrite seq_items_app by done.
  destruct (decide (k ≤ length ws)%nat).
  - rewrite take_app_length' by (rewrite length_seq_items, length_take; lia). done.
  - rewrite drop_ge by lia. simpl. rewrite app_nil_r. rewrite take_ge; [done|].
    rewrite length_seq_items, length_take. lia.
Qed.

Lemma seq_items_drop p ws k :
  p ≠ [] → drop k (seq_items p ws) = seq_items (roll p (take k ws)) (drop k ws).
Proof.
  intros Hp. rewrite <- (take_drop k ws) at 1. rewrite seq_items_app by done.
  destruct (decide (k ≤ length ws)%nat).
  - rewrite drop_app_length' by (rewrite length_seq_items, length_take; lia). done.
  - rewrite !(drop_ge ws) by lia. simpl. rewrite app_nil_r, drop_ge; [done|].
    rewrite length_seq_items, length_take. lia.
Qed.

(** The scan of the code sends exactly these items, and does not panic,
    from any non-empty prefix. *)
Lemma scan_send_items ch p ws :
  p ≠ [] → scan send ch p ws = Some (ch ++ seq_items p ws, roll p ws).
Proof.
  revert ch p. induction ws as [|w ws IH]; intros ch p Hp.
  { simpl. by rewrite app_nil_r, roll_nil. }
  destruct p as [|x p]; [done|]. simpl scan.
  rewrite Prefix_Shift_cons. simpl. rewrite IH by (by destruct p).
  unfold send. rewrite <- app_assoc, roll_cons. simpl. by rewrite drop_0.
Qed.

Lemma replicate_nonempty (pl : Z) : 1 ≤ pl → replicate (Z.to_nat pl) "" ≠ ([] : Prefix).
Proof. intros H. destruct (Z.to_nat pl) eqn:E; [lia|done]. Qed.

Lemma roll_nonempty p ws : p ≠ [] → roll p ws ≠ [].
Proof.
  intros Hp Hr. apply (f_equal length) in Hr. rewrite length_roll in Hr.
  by destruct p.
Qed.

(** ** The goroutines send the items of the sequential scan *)

Lemma index_nat {A} (s : list A) (i : nat) : index s (Z.of_nat i) = s !! i.
Proof. unfold index. rewrite bool_decide_eq_true_2 by lia. by rewrite Nat2Z.id. Qed.

Lemma context_loop_fill c words start (target : list string) (k j : nat) p :
  (j + k ≤ length p)%nat → (j + k ≤ length target)%nat →
  (∀ i, (j ≤ i)%nat → (i < j + k)%nat →
        index words (start + Z.of_nat i - prefixLen c) = target !! i) →
  context_loop c words start (seqZ (Z.of_nat j) (Z.of_nat k)) p
  = Some (take j p ++ take k (drop j target) ++ drop (j + k) p).
Proof.
  revert j p. induction k as [|k IH]; intros j p Hp Ht Hget.
  { simpl. rewrite Nat.add_0_r. by rewrite take_drop. }
  rewrite seqZ_cons by lia.
  replace (Z.succ (Z.of_nat j)) with (Z.of_nat (S j)) by lia.
  replace (Z.pred (Z.of_nat (S k))) with (Z.of_nat k) by lia.
  simpl context_loop.
  destruct (lookup_lt_is_Some_2 target j ltac:(lia)) as [w Hw].
  rewrite (Hget j) by lia. rewrite Hw. simpl.
  unfold store. rewrite bool_decide_eq_true_2 by (unfold len; lia). simpl.
  rewrite Nat2Z.id.
  rewrite IH; [|rewrite length_insert; lia|lia|intros; apply Hget; lia].
  f_equal. rewrite (drop_S target w j Hw). simpl take.
  rewrite (insert_take_drop p j w) by lia.
  rewrite take_app_ge by (rewrite length_take; lia).
  rewrite drop_app_ge by (rewrite length_take; lia).
  rewrite length_take, Nat.min_l by lia.
  replace (S j - j)%nat with 1%nat by lia.
  replace (S j + k - j)%nat with (S k) by lia.
  simpl. rewrite take_0, drop_drop, <- app_assoc. simpl.
  do 3 f_equal. f_equal. lia.
Qed.

Lemma worker_prefix_Some c words start :
  0 ≤ prefixLen c → start = 0 ∨ (prefixLen c ≤ start ∧ start ≤ len words) →
  worker_prefix c words start
  = Some (roll (replicate (Z.to_nat (prefixLen c)) "") (take (Z.to_nat start) words)).
Proof.
  intros Hpl Hs. unfold worker_prefix, make.
  rewrite (bool_decide_eq_true_2 (0 ≤ prefixLen c)) by done. simpl.
  case_bool_decide as Hne.
  - destruct Hs as [->|[Hlo Hhi]]; [lia|].
    set (pl := Z.to_nat (prefixLen c)).
    set (target := take pl (drop (Z.to_nat (start - prefixLen c)) words)).
    rewrite <- (Z2Nat.id (prefixLen c)) at 1 by done. fold pl.
    rewrite (context_loop_fill c words start target pl 0).
    + rewrite take_0, drop_0. simpl. rewrite drop_ge by (rewrite length_replicate; lia).
      rewrite app_nil_r. f_equal. unfold roll, target.
      rewrite take_ge by (rewrite length_take, length_drop; unfold len in *; lia).
      rewrite length_take, Nat.min_l by (unfold len in *; lia).
      rewrite drop_app_ge by (rewrite length_replicate; lia).
      rewrite length_replicate. rewrite take_drop_commute.
      f_equal; [lia|]. f_equal. lia.
    + rewrite length_replicate. lia.
    + unfold target. rewrite length_take, length_drop. unfold len in *. lia.
    + intros i _ Hi. unfold target. rewrite lookup_take_lt by lia.
      rewrite lookup_drop.
      replace (start + Z.of_nat i - prefixLen c)
        with (Z.of_nat (Z.to_nat (start - prefixLen c) + i)) by lia.
      apply index_nat.
  - subst start. simpl. by rewrite roll_nil.
Qed.

(** A worker whose segment is in range, and starts at 0 or has
    [prefixLen] words before it, sends the sequential scan's items for its
    segment. *)
Lemma worker_items c words s e :
  1 ≤ prefixLen c → s = 0 ∨ prefixLen c ≤ s → s ≤ e → e ≤ len words →
  worker c words (s, e)
  = Some (take (Z.to_nat (e - s))
            (drop (Z.to_nat s)
               (seq_items (replicate (Z.to_nat (prefixLen c)) "") words))).
Proof.
  intros Hpl Hs Hse He. unfold worker. simpl.
  rewrite worker_prefix_Some by lia. simpl.
  unfold slice. rewrite bool_decide_eq_true_2 by lia. simpl.
  rewrite scan_send_items by (by apply roll_nonempty, replicate_nonempty). simpl.
  f_equal. rewrite seq_items_drop by (by apply replicate_nonempty).
  rewrite seq_items_take; [done|]. by apply roll_nonempty, replicate_nonempty.
Qed.

Lemma slice_window {A} (s : list A) lo hi :
  0 ≤ lo → lo ≤ hi → hi ≤ len s →
  slice s lo hi = Some (drop (Z.to_nat lo) (take (Z.to_nat hi) s)).
Proof.
  intros. unfold slice. rewrite bool_decide_eq_true_2 by lia.
  f_equal. rewrite take_drop_commute. do 2 f_equal. lia.
Qed.

(** The goroutine for position [idx] sends the sequential scan's item
    number [idx]. *)
Lemma go_word_item c words idx :
  1 ≤ prefixLen c → prefixLen c ≤ idx → idx < len words →
  go_word c words idx
  = Some (take 1 (drop (Z.to_nat idx)
                    (seq_items (replicate (Z.to_nat (prefixLen c)) "") words))).
Proof.
  intros Hpl Hlo Hhi. unfold go_word.
  rewrite slice_window by lia. simpl.
  unfold index. rewrite bool_decide_eq_true_2 by lia.
  destruct (lookup_lt_is_Some_2 words (Z.to_nat idx)) as [w Hw];
    [unfold len in *; lia|].
  rewrite Hw. simpl. f_equal.
  rewrite seq_items_drop by (by apply replicate_nonempty).
  rewrite (drop_S words w _ Hw). simpl. rewrite take_0. do 2 f_equal.
  unfold roll. rewrite length_take, Nat.min_l by (unfold len in *; lia).
  rewrite drop_app_ge by (rewrite length_replicate; lia).
  rewrite length_replicate. unfold Prefix_String. do 2 f_equal. lia.
Qed.

Lemma mapM_fmap_total {A B} (f : A → option B) (g : A → B) (l : list A) :
  (∀ x, x ∈ l → f x = Some (g x)) → mapM f l = Some (g <$> l).
Proof.
  intros H. apply mapM_Some_2.
  induction l as [|x l IH]; [constructor|].
  rewrite fmap_cons. constructor.
  - apply H. by left.
  - apply IH. intros y Hy. apply H. by right.
Qed.

Lemma concat_unit_slices {A} (T : list A) (k j : nat) :
  concat ((λ idx, take 1 (drop (Z.to_nat idx) T)) <$> seqZ (Z.of_nat j) (Z.of_nat k))
  = take k (drop j T).
Proof.
  revert j. induction k as [|k IH]; intros j; [done|].
  rewrite seqZ_cons by lia.
  replace (Z.succ (Z.of_nat j)) with (Z.of_nat (S j)) by lia.
  replace (Z.pred (Z.of_nat (S k))) with (Z.of_nat k) by lia.
  rewrite fmap_cons. cbn [concat]. rewrite IH, Nat2Z.id.
  change (S k) with (1 + k)%nat.
  rewrite <- (take_take_drop (drop j T) 1 k), drop_drop.
  do 3 f_equal. lia.
Qed.

Lemma concat_segments {A} (T : list A) n pw (k : nat) :
  0 ≤ pw → n = len T → (k = 0%nat ∨ pw * (Z.of_nat k - 1) ≤ n) →
  concat ((λ se : Z * Z, take (Z.to_nat (se.2 - se.1)) (drop (Z.to_nat se.1) T))
            <$> (segment n pw <$> seqZ 0 (Z.of_nat k)))
  = take (Z.to_nat (Z.min (pw * Z.of_nat k) n)) T.
Proof.
  intros Hpw Hn. induction k as [|k IH]; intros Hk.
  { simpl. rewrite Z.mul_0_r, Z.min_l by (subst n; apply len_nonneg). by rewrite take_0. }
  destruct Hk as [?|Hk]; [done|].
  rewrite seqZ_S, !fmap_app, concat_app, IH by (destruct k; [by left|right; nia]).
  simpl. rewrite app_nil_r.
  rewrite (Z.min_l (pw * Z.of_nat k)) by nia.
  rewrite take_take_drop. f_equal.
  assert (pw * Z.of_nat k ≤ Z.min (pw * (Z.of_nat k + 1)) n) by (apply Z.min_glb; nia).
  replace (pw * Z.of_nat (S k)) with (pw * (Z.of_nat k + 1)) by lia. lia.
Qed.

Section Sequential.
Variable c : Chain.
Variable words : list string.

Local Abbreviation T := (seq_items (replicate (Z.to_nat (prefixLen c)) "") words).

Lemma len_T : len T = len words.
Proof. unfold len, T. by rewrite length_seq_items. Qed.

Lemma BuildSeq_items :
  1 ≤ prefixLen c → BuildSeq c words = Some (run c T).
Proof.
  intros Hpl. unfold BuildSeq, make.
  rewrite bool_decide_eq_true_2 by lia. simpl.
  rewrite scan_Insert, scan_send_items by (by apply replicate_nonempty). done.
Qed.

Lemma go_words_items :
  1 ≤ prefixLen c → prefixLen c ≤ len words →
  ∃ gs, go_words c words = Some gs ∧ concat gs = drop (Z.to_nat (prefixLen c)) T.
Proof.
  intros Hpl Hle. eexists. split.
  - unfold go_words. apply mapM_fmap_total.
    intros idx Hi%elem_of_seqZ. apply go_word_item; lia.
  - rewrite <- (Z2Nat.id (prefixLen c)) at 1 by lia.
    rewrite <- (Z2Nat.id (len words - prefixLen c)) by lia.
    rewrite concat_unit_slices. apply take_ge.
    rewrite length_drop. pose proof len_T. unfold len in *. lia.
Qed.
End Sequential.

(** ** Inside [Build_ok] every build returns *)

Lemma sent_to_Permutation key items1 items2 :
  items1 ≡ₚ items2 → sent_to key items1 ≡ₚ sent_to key items2.
Proof. intros H. unfold sent_to. by rewrite H. Qed.

Lemma run_Permutation c items1 items2 :
  items1 ≡ₚ items2 → same_successors (run c items1) (run c items2).
Proof.
  intros H key. rewrite !Load_run.
  pose proof (sent_to_Permutation key _ _ H) as Hs.
  destruct (sent_to key items1) as [|w1 s1] eqn:E1.
  - destruct (sent_to key items2) as [|w2 s2].
    + by destruct (Load (chain c) key).
    + by apply Permutation_nil_cons in Hs.
  - destruct (sent_to key items2) as [|w2 s2].
    + symmetry in Hs. by apply Permutation_nil_cons in Hs.
    + by rewrite Hs.
Qed.

Lemma concat_singletons {A} (l : list A) : concat ((λ x, [x]) <$> l) = l.
Proof. induction l as [|x l IH]; [done|]. rewrite fmap_cons. cbn [concat app]. by rewrite IH. Qed.

Section Inside_Build_ok.
Variable sched : scheduler.
Hypothesis sched_complete : complete sched.
Variable c : Chain.
Variable words : list string.

Local Abbreviation T := (seq_items (replicate (Z.to_nat (prefixLen c)) "") words).

Lemma workers_of_items workers :
  1 ≤ prefixLen c → 0 < workers →
  len words = 0 ∨ workers = 1
  ∨ (prefixLen c ≤ perWorker (len words) workers
     ∧ perWorker (len words) workers * (workers - 1) ≤ len words) →
  ∃ gs, workers_of c words workers = Some gs ∧ concat gs = T.
Proof.
  intros Hpl HW Hok.
  pose proof (len_nonneg words) as Hn.
  pose proof (perWorker_ceil _ _ Hn HW) as Hceil.
  pose proof (perWorker_nonneg _ _ Hn HW) as Hpw.
  remember (perWorker (len words) workers) as pw eqn:Epw.
  exists ((λ se : Z * Z, take (Z.to_nat (se.2 - se.1)) (drop (Z.to_nat se.1) T))
            <$> segments (len words) workers).
  split.
  - unfold workers_of. rewrite bool_decide_eq_true_2 by done.
    apply mapM_fmap_total. intros [s e] Hse.
    unfold segments in Hse. apply list_elem_of_fmap in Hse as (i & Hse & Hi).
    apply elem_of_seqZ in Hi. unfold segment in Hse. rewrite <- Epw in Hse.
    injection Hse as -> ->. simpl.
    apply worker_items; [done| | |lia].
    + destruct (decide (i = 0)) as [->|]; [left; lia|].
      destruct Hok as [?|[?|[? ?]]].
      * left. assert (pw = 0) as -> by nia. lia.
      * exfalso. clear Hceil. lia.
      * right. nia.
    + apply Z.min_glb; [nia|].
      destruct Hok as [?|[?|[? ?]]].
      * assert (pw = 0) as -> by nia. lia.
      * assert (i = 0) as -> by (clear Hceil; lia). lia.
      * assert (pw * i ≤ pw * (workers - 1)) by (apply Z.mul_le_mono_nonneg_l; lia). lia.
  - unfold segments. rewrite <- Epw.
    rewrite <- (Z2Nat.id workers) by lia.
    rewrite concat_segments; [| done | symmetry; apply len_T |].
    + apply take_ge. pose proof (len_T c words) as HT.
      rewrite Z2Nat.id by lia. rewrite Z.min_r by lia. unfold len in *. lia.
    + right. rewrite Z2Nat.id by lia.
      destruct Hok as [?|[?|[? ?]]].
      * assert (pw = 0) as -> by nia. lia.
      * subst workers. lia.
      * lia.
Qed.

Lemma drain_items capacity inserters ch :
  0 < inserters →
  ∃ items, drain sched capacity inserters c ch = Some (run c items) ∧ items ≡ₚ ch.
Proof.
  intros Hi. unfold drain.
  rewrite bool_decide_eq_false_2 by lia. rewrite bool_decide_eq_false_2 by lia.
  case_bool_decide.
  - by exists ch.
  - eexists. split; [done|]. by rewrite (sched_complete _), concat_singletons.
Qed.

(** Inside [Build_ok] every strategy returns, having run the inserts of
    the sequential scan in some order. *)
Lemma Build_items workers inserters :
  Build_ok (prefixLen c) (len words) workers inserters →
  ∃ items, Build sched c words workers inserters = Some (run c items) ∧ items ≡ₚ T.
Proof.
  intros (Hpl & Hok). unfold Build.
  case_bool_decide as HW1.
  { exists T. split; [|done]. by apply BuildSeq_items. }
  case_bool_decide as HW0.
  - destruct Hok as [?|[(_ & Hle & HI)|(? & _)]]; [done| |lia].
    destruct (go_words_items c words Hpl Hle) as (gs & Hgs & Hcat).
    pose proof (len_nonneg words).
    assert (slice words 0 (prefixLen c) = Some (take (Z.to_nat (prefixLen c)) words)) as Hseed.
    { unfold slice. rewrite bool_decide_eq_true_2 by lia.
      by rewrite Z.sub_0_r, drop_0. }
    assert (T ≡ₚ take (Z.to_nat (prefixLen c)) T ++ sched gs) as HT.
    { rewrite (sched_complete gs), Hcat. by rewrite take_drop. }
    unfold BuildGo, BuildGoChannel.
    case_bool_decide as HI0.
    + unfold BuildGoLock, make. rewrite bool_decide_eq_true_2 by lia. simpl.
      rewrite Hseed. simpl.
      rewrite scan_Insert, scan_send_items by (by apply replicate_nonempty). simpl.
      rewrite Hgs. simpl. rewrite <- run_app.
      eexists. split; [done|].
      by rewrite <- seq_items_take by (by apply replicate_nonempty).
    + destruct HI as [?|[HIpos Hcap]]; [done|].
      assert (BuildGoChannels sched c words inserters
              = drain sched 8 inserters c (take (Z.to_nat (prefixLen c)) T ++ sched gs)) as HB.
      { unfold BuildGoChannels, make. rewrite bool_decide_eq_true_2 by lia. simpl.
        rewrite Hseed. simpl.
        rewrite scan_send_items by (by apply replicate_nonempty). simpl.
        rewrite <- seq_items_take by (by apply replicate_nonempty).
        rewrite bool_decide_eq_true_2.
        - by rewrite Hgs.
        - pose proof (len_T c words) as HlT.
          unfold len in *. rewrite length_take. lia. }
      destruct (drain_items 8 inserters (take (Z.to_nat (prefixLen c)) T ++ sched gs) HIpos)
        as (items & Hd & Hp).
      exists items. split; [|by rewrite Hp].
      case_bool_decide; [subst inserters|]; by rewrite HB.
  - destruct Hok as [?|[(? & _)|(HW & HI & Hseg)]]; [done..|].
    destruct (workers_of_items workers Hpl ltac:(lia)) as (gs & Hgs & Hcat).
    { destruct Hseg; [by left|by right; right]. }
    unfold BuildTP, BuildTPChannel, BuildTPLock, BuildTPChannels. rewrite Hgs. simpl.
    case_bool_decide as HI0.
    + eexists. split; [done|]. by rewrite (sched_complete gs), Hcat.
    + destruct (drain_items workers inserters (sched gs) ltac:(lia)) as (items & Hd & Hp).
      exists items. split; [|by rewrite Hp, (sched_complete gs), Hcat].
      case_bool_decide; [subst inserters|]; done.
Qed.
End Inside_Build_ok.

(** ** Every build that returns *)

Section Returned.
Variable sched : scheduler.
Hypothesis sched_complete : complete sched.

Lemma scan_Insert_Some c p words r :
  scan Insert c p words = Some r →
  ∃ items, r.1 = run c items ∧ len items = len words.
Proof.
  rewrite scan_Insert. destruct (scan send [] p words) as [r'|] eqn:E; [|done].
  simpl. intros [= <-]. exists r'.1. split; [done|].
  apply scan_send_len in E. rewrite E. unfold len. simpl. lia.
Qed.

Lemma BuildSeq_inserts c words c' :
  BuildSeq c words = Some c' →
  0 ≤ prefixLen c ∧ ∃ items, c' = run c items ∧ len items = len words.
Proof.
  unfold BuildSeq. destruct (make (prefixLen c)) as [p|] eqn:Hmk; [|done]. simpl.
  apply make_Some in Hmk as (Hpl & _ & _).
  destruct (scan Insert c p words) as [r|] eqn:Hsc; [|done]. simpl. intros [= <-].
  split; [done|]. by eapply scan_Insert_Some.
Qed.

Lemma BuildGoLock_inserts c words c' :
  BuildGoLock sched c words = Some c' →
  0 ≤ prefixLen c ∧ ∃ items, c' = run c items ∧ len items = len words.
Proof.
  unfold BuildGoLock. destruct (make (prefixLen c)) as [p|] eqn:Hmk; [|done]. simpl.
  apply make_Some in Hmk as (Hpl & _ & _).
  destruct (slice words 0 (prefixLen c)) as [seed|] eqn:Hsl; [|done]. simpl.
  apply slice_Some in Hsl as (_ & _ & Hle & _ & Hseed).
  destruct (scan Insert c p seed) as [r|] eqn:Hsc; [|done]. simpl.
  destruct (go_words c words) as [gs|] eqn:Hgs; [|done]. simpl. intros [= <-].
  split; [done|].
  apply scan_Insert_Some in Hsc as (items & -> & Hlen).
  apply go_words_len in Hgs; [|done..].
  exists (items ++ sched gs). split; [by rewrite run_app|].
  rewrite len_app, len_complete by done. lia.
Qed.

Lemma BuildGoChannels_inserts c words inserters c' :
  inserters ≠ 0 →
  BuildGoChannels sched c words inserters = Some c' →
  0 ≤ prefixLen c ∧ ∃ items, c' = run c items ∧ len items = len words.
Proof.
  intros HI. unfold BuildGoChannels.
  destruct (make (prefixLen c)) as [p|] eqn:Hmk; [|done]. simpl.
  apply make_Some in Hmk as (Hpl & _ & _).
  destruct (slice words 0 (prefixLen c)) as [seed|] eqn:Hsl; [|done]. simpl.
  apply slice_Some in Hsl as (_ & _ & Hle & _ & Hseed).
  destruct (scan send [] p seed) as [r|] eqn:Hsc; [|done]. simpl.
  case_bool_decide; [|done].
  destruct (go_words c words) as [gs|] eqn:Hgs; [|done]. simpl. intros Hd.
  split; [done|].
  apply drain_inserts in Hd as (_ & items & -> & Hp); [|done..].
  exists items. split; [done|].
  apply scan_send_len in Hsc. apply go_words_len in Hgs; [|done..].
  unfold len at 1. rewrite Hp. fold (len (r.1 ++ sched gs)).
  rewrite len_app, len_complete by done. rewrite Hsc. unfold len at 1. simpl. lia.
Qed.

Lemma BuildTP_inserts c words workers inserters c' :
  BuildTP sched c words workers inserters = Some c' →
  0 ≤ prefixLen c ∧ ∃ items, c' = run c items ∧ len items = len words.
Proof.
  assert (∀ gs, workers_of c words workers = Some gs →
            len (sched gs) = len words ∧ 0 ≤ prefixLen c) as Hw.
  { intros gs (_ & ? & ?)%workers_of_len. by rewrite len_complete. }
  assert (∀ i, i ≠ 0 → BuildTPChannels sched c words workers i = Some c' →
            0 ≤ prefixLen c ∧ ∃ items, c' = run c items ∧ len items = len words) as Hch.
  { intros i Hi. unfold BuildTPChannels.
    destruct (workers_of c words workers) as [gs|] eqn:Hgs; [|done]. simpl. intros Hd.
    destruct (Hw gs eq_refl) as (Hlen & ?). split; [done|].
    apply drain_inserts in Hd as (_ & items & -> & Hp); [|done..].
    exists items. split; [done|]. unfold len at 1. rewrite Hp. exact Hlen. }
  unfold BuildTP, BuildTPChannel. case_bool_decide as H0.
  - unfold BuildTPLock.
    destruct (workers_of c words workers) as [gs|] eqn:Hgs; [|done]. simpl. intros [= <-].
    destruct (Hw gs eq_refl) as (Hlen & ?). split; [done|]. by exists (sched gs).
  - case_bool_decide; apply Hch; lia.
Qed.

(** Whatever the strategy, a build that returns has run one insert for
    each word. *)
Lemma Build_inserts c words workers inserters c' :
  Build sched c words workers inserters = Some c' →
  0 ≤ prefixLen c ∧ ∃ items, c' = run c items ∧ len items = len words.
Proof.
  unfold Build. case_bool_decide; [apply BuildSeq_inserts|].
  case_bool_decide; [|apply BuildTP_inserts].
  unfold BuildGo, BuildGoChannel. case_bool_decide; [apply BuildGoLock_inserts|].
  case_bool_decide; apply BuildGoChannels_inserts; lia.
Qed.
End Returned.

(** ** The number of insertions, and the equivalence of the strategies *)

(** C2.  The number of insertions in the table [BuildGoLock] returns is
    not determined by the corpus: an insertion can be lost.  On the
    ten-word test corpus with [prefixLen = 2] the goroutines of the two
    words that follow "I am" (the first and the sixth spawned) can both
    [Load] before either stores; the [Delete] of the second then removes
    what the first stored.  Every goroutine returns, [wg.Wait()] with
    them, and the table holds nine insertions, with a alone under "I am".
    With the same calls made one after the other, and in the sequential
    build, the table holds ten, not and a under "I am": one insertion per
    word, the two seeded ones included.  Nine is neither that count nor
    [len(tokens) - prefixLen = 8]. *)
Theorem BuildGoLock_loses_an_insertion :
  (total <$> BuildGoLock_steps
               [0; 5; 0; 0; 5; 5; 1; 1; 1; 2; 2; 2; 3; 3; 3; 4; 4; 4; 6; 6; 6; 7; 7; 7]%nat
               (NewChain 2) simple = Some 9
   ∧ (λ c, successors c "I am")
       <$> BuildGoLock_steps
             [0; 5; 0; 0; 5; 5; 1; 1; 1; 2; 2; 2; 3; 3; 3; 4; 4; 4; 6; 6; 6; 7; 7; 7]%nat
             (NewChain 2) simple = Some ["a"])
  ∧ (total <$> BuildGoLock_steps (serial 0 8) (NewChain 2) simple = Some 10
     ∧ (λ c, successors c "I am") <$> BuildGoLock_steps (serial 0 8) (NewChain 2) simple
       = Some ["not"; "a"])
  ∧ (total <$> Build one_by_one (NewChain 2) simple 1 0 = Some 10
     ∧ (λ c, successors c "I am") <$> Build one_by_one (NewChain 2) simple 1 0
       = Some ["not"; "a"])
  ∧ len simple = 10.
Proof. split_and!; by vm_compute. Qed.

(** With no insertion lost the count is [len(tokens)], not
    [len(tokens) - prefixLen]: the sequential build of the ten-word test
    corpus with [prefixLen = 2] returns a table of ten insertions, not
    eight, the first two words being inserted under the keys [" "] and
    [" I"].  On a one-word corpus it returns a table of one insertion,
    not none. *)
Lemma total_simple_is_not_len_minus_prefixLen :
  total <$> Build one_by_one (NewChain 2) simple 1 0 = Some 10
  ∧ len simple - 2 = 8
  ∧ total <$> Build one_by_one (NewChain 2) ["a"] 1 0 = Some 1.
Proof. split_and!; reflexivity. Qed.

Lemma one_by_one_complete : complete one_by_one.
Proof. by intros gs. Qed.

Lemma last_first_complete : complete last_first.
Proof.
  intros gs. unfold last_first.
  induction gs as [|g gs IH]; [done|].
  rewrite reverse_cons, concat_app, IH. simpl. rewrite app_nil_r.
  apply Permutation_app_comm.
Qed.

(** The count when the calls of [Insert] do not overlap.  Whatever the
    strategy, and whatever the order in which the inserts of its
    goroutines take effect one at a time, a build that returns has
    made [len(tokens)] insertions in all, the seeded ones under the
    partly empty prefixes included; and inside [Build_ok] the build does
    return. *)
Theorem Build_total sched (pl : Z) (words : list string) (W I : Z) :
  complete sched →
  (∀ c', Build sched (NewChain pl) words W I = Some c' → total c' = len words)
  ∧ (Build_ok pl (len words) W I →
     ∃ c', Build sched (NewChain pl) words W I = Some c' ∧ total c' = len words).
Proof.
  intros Hs.
  assert (∀ c', Build sched (NewChain pl) words W I = Some c' → total c' = len words) as H.
  { intros c' (_ & items & -> & Hlen)%Build_inserts; [|done].
    by rewrite total_run, total_NewChain, Hlen. }
  split; [done|]. intros Hok.
  destruct (Build_items sched Hs (NewChain pl) words W I Hok) as (items & HB & _).
  eexists. split; [done|]. by apply H.
Qed.

Lemma Build_total_witness :
  ∃ c', Build last_first (NewChain 2) simple 4 4 = Some c' ∧ total c' = len simple.
Proof.
  apply (Build_total last_first 2 simple 4 4 last_first_complete).
  unfold Build_ok. change (len simple) with 10. change (perWorker 10 4) with 3. lia.
Defined.

(** X8. Strategy equivalence, inside [Build_ok]: with the inserts serialised
    in any order, each strategy returns a table that holds for every key
    the same multiset of successors as the sequential scan's. *)
Theorem Build_matches_sequential sched (c : Chain) (words : list string) (W I : Z) :
  complete sched → Build_ok (prefixLen c) (len words) W I →
  ∃ c1 c2, BuildSeq c words = Some c1
           ∧ Build sched c words W I = Some c2
           ∧ same_successors c1 c2.
Proof.
  intros Hs Hok.
  destruct (Build_items sched Hs c words W I Hok) as (items & HB & Hp).
  exists (run c (seq_items (replicate (Z.to_nat (prefixLen c)) "") words)), (run c items).
  split_and!; [apply BuildSeq_items; apply Hok|done|].
  by apply run_Permutation.
Qed.

Lemma Build_matches_sequential_witness :
  ∃ c1 c2, BuildSeq (NewChain 2) simple = Some c1
           ∧ Build last_first (NewChain 2) simple 4 0 = Some c2
           ∧ same_successors c1 c2.
Proof.
  apply (Build_matches_sequential last_first (NewChain 2) simple 4 0 last_first_complete).
  unfold Build_ok. change (prefixLen (NewChain 2)) with 2.
  change (len simple) with 10. change (perWorker 10 4) with 3. lia.
Defined.

(** ** Where the builds panic *)

(** The goroutine-per-word builds panic on every corpus shorter than
    [prefixLen], at [words[:c.prefixLen]]. *)
Lemma BuildGo_short_corpus sched (c : Chain) (words : list string) (inserters : Z) :
  len words < prefixLen c → BuildGo sched c words inserters = None.
Proof.
  intros Hlt.
  assert (slice words 0 (prefixLen c) = None) as Hsl.
  { unfold slice. by rewrite bool_decide_eq_false_2 by lia. }
  unfold BuildGo, BuildGoChannel, BuildGoLock, BuildGoChannels.
  rewrite Hsl. destruct (make (prefixLen c)); by repeat case_bool_decide.
Qed.

Lemma worker_prefix_before_prefixLen c words start :
  0 < start → start < prefixLen c → worker_prefix c words start = None.
Proof.
  intros H0 Hlt. unfold worker_prefix, make.
  rewrite bool_decide_eq_true_2 by lia. simpl.
  rewrite bool_decide_eq_true_2 by lia.
  rewrite seqZ_cons by lia. simpl.
  unfold index. by rewrite bool_decide_eq_false_2 by lia.
Qed.

Lemma context_loop_reads c words start idxs p p' :
  context_loop c words start idxs p = Some p' →
  ∀ idx, idx ∈ idxs → is_Some (index words (start + idx - prefixLen c)).
Proof.
  revert p. induction idxs as [|i idxs IH]; intros p H idx Hin.
  { by apply elem_of_nil in Hin. }
  simpl in H.
  destruct (index words (start + i - prefixLen c)) as [w|] eqn:Hw; [|done]. simpl in H.
  destruct (store p i w) as [p1|]; [|done]. simpl in H.
  apply elem_of_cons in Hin as [->|Hin]; [by rewrite Hw|by eapply IH].
Qed.

Lemma index_is_Some {A} (s : list A) (i : Z) : is_Some (index s i) ↔ 0 ≤ i ∧ i < len s.
Proof.
  unfold index, len. case_bool_decide.
  - rewrite lookup_lt_is_Some. lia.
  - split; [by intros [? ?]|lia].
Qed.

(** The reads of a worker's context loop are all in range exactly when
    the worker starts at 0 (no read), or at an index from [prefixLen] to
    [len(words)]. *)
Lemma worker_prefix_returns_iff c words start :
  is_Some (worker_prefix c words start)
  ↔ 0 ≤ prefixLen c
    ∧ (start = 0 ∨ prefixLen c = 0 ∨ (prefixLen c ≤ start ∧ start ≤ len words)).
Proof.
  split.
  - intros [p H]. unfold worker_prefix in H.
    destruct (make (prefixLen c)) as [p0|] eqn:Hmk; [|done]. simpl in H.
    apply make_Some in Hmk as (Hpl & _ & _). split; [done|].
    destruct (decide (start = 0)) as [|Hne]; [by left|].
    rewrite bool_decide_eq_true_2 in H by done.
    destruct (decide (prefixLen c = 0)) as [|Hpos]; [by right; left|right; right].
    pose proof (context_loop_reads _ _ _ _ _ _ H) as Hreads.
    pose proof (Hreads 0 ltac:(apply elem_of_seqZ; lia)) as H1%index_is_Some.
    pose proof (Hreads (prefixLen c - 1) ltac:(apply elem_of_seqZ; lia)) as H2%index_is_Some.
    lia.
  - intros (Hpl & Hs).
    destruct (decide (prefixLen c = 0)) as [Hz|Hpos].
    + unfold worker_prefix, make.
      rewrite (bool_decide_eq_true_2 (0 ≤ prefixLen c)) by done. simpl.
      rewrite Hz. simpl. by case_bool_decide.
    + rewrite worker_prefix_Some; [done|done|]. destruct Hs as [?|[?|?]]; [by left|done|by right].
Qed.

(** A worker that returns has sent the sequential scan's items for its
    segment: its first key is the sequential key at its start. *)
Lemma worker_Some_items c words s e g :
  1 ≤ prefixLen c → worker c words (s, e) = Some g →
  g = take (Z.to_nat (e - s))
        (drop (Z.to_nat s) (seq_items (replicate (Z.to_nat (prefixLen c)) "") words)).
Proof.
  intros Hpl H.
  pose proof (worker_Some _ _ _ _ H) as (_ & H0 & Hse & He & _). simpl in *.
  assert (s = 0 ∨ prefixLen c ≤ s) as Hs.
  { destruct (decide (s = 0)) as [|Hne]; [by left|right].
    destruct (decide (prefixLen c ≤ s)) as [|Hlt]; [done|].
    unfold worker in H. simpl in H.
    rewrite worker_prefix_before_prefixLen in H by lia. done. }
  rewrite worker_items in H by done. by injection H as <-.
Qed.

(** The partitioned builds panic on every non-empty corpus shorter than
    [prefixLen]: the second worker starts inside the first [prefixLen]
    words. *)
Lemma BuildTP_short_corpus sched (c : Chain) (words : list string) (workers inserters : Z) :
  0 < len words → len words < prefixLen c → 1 < workers →
  BuildTP sched c words workers inserters = None.
Proof.
  intros Hn Hlt HW.
  assert (workers_of c words workers = None) as Hw.
  { unfold workers_of. rewrite bool_decide_eq_true_2 by lia.
    apply mapM_None_2, Exists_exists.
    pose proof (perWorker_ceil (len words) workers ltac:(lia) ltac:(lia)) as Hceil.
    exists (segment (len words) (perWorker (len words) workers) 1). split.
    - unfold segments. apply list_elem_of_fmap. exists 1. split; [done|].
      apply elem_of_seqZ. lia.
    - unfold worker, segment. simpl.
      rewrite worker_prefix_before_prefixLen; [done|nia|nia]. }
  unfold BuildTP, BuildTPChannel, BuildTPLock, BuildTPChannels. rewrite Hw.
  by repeat case_bool_decide.
Qed.

(** C1, at the failing input.  Five words, [prefixLen = 2], four workers:
    the fourth worker's segment starts at 6, and reading its preceding
    context indexes [words[5]]; the partitioned build panics under every
    schedule and every inserter count, where the sequential build returns. *)
Theorem BuildTP_five_words_four_workers :
  (∀ sched I, Build sched (NewChain 2) ["a"; "b"; "c"; "d"; "e"] 4 I = None)
  ∧ segments 5 4 !! 3%nat = Some (6, 5)
  ∧ index ["a"; "b"; "c"; "d"; "e"] (6 + 1 - 2) = None
  ∧ chain <$> BuildSeq (NewChain 2) ["a"; "b"; "c"; "d"; "e"]
    = Some (list_to_map
              [(" ", ["a"]); (" a", ["b"]); ("a b", ["c"]); ("b c", ["d"]); ("c d", ["e"])]).
Proof.
  split_and!; [|by vm_compute..].
  intros sched I. unfold Build, BuildTP, BuildTPChannel, BuildTPLock, BuildTPChannels.
  change (workers_of (NewChain 2) ["a"; "b"; "c"; "d"; "e"] 4) with (@None (list (list WorkItem))).
  by repeat case_bool_decide.
Qed.

(** C3, at the failing input.  One word and [prefixLen = 2]: every
    goroutine-per-word build panics at [words[:2]] and every partitioned
    build at [words[1+0-2]]; the sequential build returns the table that
    holds the one seeded insert. *)
Theorem Build_one_word_prefixLen_two :
  (∀ sched I, Build sched (NewChain 2) ["a"] 0 I = None)
  ∧ (∀ sched I, Build sched (NewChain 2) ["a"] 2 I = None)
  ∧ chain <$> BuildSeq (NewChain 2) ["a"] = Some {[ " " := ["a"] ]}.
Proof.
  split_and!; [| |by vm_compute].
  - intros sched I. unfold Build. simpl. by apply BuildGo_short_corpus.
  - intros sched I. unfold Build, BuildTP, BuildTPChannel, BuildTPLock, BuildTPChannels.
    change (workers_of (NewChain 2) ["a"] 2) with (@None (list (list WorkItem))).
    by repeat case_bool_decide.
Qed.

(** C4, at the failing input.  Four words, [prefixLen = 2], four workers:
    the second worker starts at index 1, with one word before it, and its
    context loop reads [words[1+0-2]], out of range. *)
Theorem worker_context_out_of_range :
  segments 4 4 !! 1%nat = Some (1, 2)
  ∧ index ["a"; "b"; "c"; "d"] (1 + 0 - 2) = None
  ∧ worker_prefix (NewChain 2) ["a"; "b"; "c"; "d"] 1 = None
  ∧ ∀ sched I, Build sched (NewChain 2) ["a"; "b"; "c"; "d"] 4 I = None.
Proof.
  split_and!; [by vm_compute..|].
  intros sched I. unfold Build, BuildTP, BuildTPChannel, BuildTPLock, BuildTPChannels.
  change (workers_of (NewChain 2) ["a"; "b"; "c"; "d"] 4) with (@None (list (list WorkItem))).
  by repeat case_bool_decide.
Qed.

(** C5, at the failing input.  Six words, [prefixLen = 3], three workers:
    worker 1 starts at index 2, inside the sequence; the sequential scan
    inserts there under the key [" a b"]; the worker panics at
    [words[2+0-3]], before its first insert, and with it the build.
    Worker 2, with [prefixLen] words before it, does send the sequential
    keys. *)
Theorem worker_first_key_missing :
  segments 6 3 !! 1%nat = Some (2, 4)
  ∧ fst <$> scan send [] [""; ""; ""] ["a"; "b"; "c"; "d"; "e"; "f"]
    = Some (seq_items [""; ""; ""] ["a"; "b"; "c"; "d"; "e"; "f"])
  ∧ pair_a <$> (seq_items [""; ""; ""] ["a"; "b"; "c"; "d"; "e"; "f"] !! 2%nat) = Some " a b"
  ∧ index ["a"; "b"; "c"; "d"; "e"; "f"] (2 + 0 - 3) = None
  ∧ worker (NewChain 3) ["a"; "b"; "c"; "d"; "e"; "f"] (2, 4) = None
  ∧ worker (NewChain 3) ["a"; "b"; "c"; "d"; "e"; "f"] (4, 6)
    = Some [pair_of "b c d" "e"; pair_of "c d e" "f"]
  ∧ ∀ sched I, Build sched (NewChain 3) ["a"; "b"; "c"; "d"; "e"; "f"] 3 I = None.
Proof.
  split_and!; [by vm_compute..|].
  intros sched I. unfold Build, BuildTP, BuildTPChannel, BuildTPLock, BuildTPChannels.
  change (workers_of (NewChain 3) ["a"; "b"; "c"; "d"; "e"; "f"] 3)
    with (@None (list (list WorkItem))).
  by repeat case_bool_decide.
Qed.

(** ** Concurrent calls of Insert *)

(** Alone, a goroutine gets through [Insert] in three steps and leaves
    the table [Insert] computes. *)
Lemma interleave_alone (c : Chain) (key word : string) :
  interleave [0; 0; 0]%nat (chain c) [calling key word]
  = (chain (Insert c key word),
     [{| ins_key := key; ins_word := word; ins_pc := Returned |}]).
Proof.
  rewrite chain_Insert.
  simpl. unfold insert_step, LoadOrStore, Delete, Load. simpl.
  rewrite lookup_delete_eq, insert_delete_eq. simpl.
  unfold successors, Load, append_word.
  by destruct (chain c !! key).
Qed.

(** Two goroutines of [BuildGoLock] that insert under the same key can
    lose a word.  For the words x a x b and [prefixLen = 1] the seed loop
    stores x under the empty key, and the three goroutines insert a under
    x, x under a and b under x.  If the first and the third both load
    before either stores, the [Delete] of the one that stores last removes
    what the other stored: the build returns with three words in the
    table, and only b under x, where the sequential scan has a and b. *)
Lemma Insert_race_loses_a_word :
  go_words (NewChain 1) ["x"; "a"; "x"; "b"]
  = Some [[pair_of "x" "a"]; [pair_of "a" "x"]; [pair_of "x" "b"]]
  ∧ interleave [0; 2; 0; 0; 2; 2; 1; 1; 1]%nat {[ "" := ["x"] ]}
      [calling "x" "a"; calling "a" "x"; calling "x" "b"]
    = (list_to_map [("", ["x"]); ("a", ["x"]); ("x", ["b"])],
       [{| ins_key := "x"; ins_word := "a"; ins_pc := Returned |};
        {| ins_key := "a"; ins_word := "x"; ins_pc := Returned |};
        {| ins_key := "x"; ins_word := "b"; ins_pc := Returned |}])
  ∧ chain <$> BuildSeq (NewChain 1) ["x"; "a"; "x"; "b"]
    = Some (list_to_map [("", ["x"]); ("a", ["x"]); ("x", ["a"; "b"])]).
Proof. split_and!; by vm_compute. Qed.

(** ** Generate *)

Lemma built_nonempty c :
  built c →
  0 ≤ prefixLen c ∧ ∀ key choices, Load (chain c) key = Some choices → 0 < len choices.
Proof.
  intros (sched & words & W & I & Hs & HB).
  apply Build_inserts in HB as (Hpl & items & Hc & _); [|done].
  split; [done|]. intros key choices. rewrite Hc, Load_run.
  destruct (sent_to key items) as [|w s]; [done|].
  intros [= <-]. rewrite len_app, len_cons.
  pose proof (len_nonneg (successors (NewChain (prefixLen c)) key)).
  pose proof (len_nonneg s). lia.
Qed.

Lemma Prefix_Shift_Some p word p' :
  Prefix_Shift p word = Some p' → ∃ x p0, p = x :: p0 ∧ p' = p0 ++ [word].
Proof.
  destruct p as [|x p0]; [done|]. rewrite Prefix_Shift_cons. intros [= <-]. by exists x, p0.
Qed.

Section GenerateFacts.
Variable rng : nat → Z.
Variable c : Chain.

Lemma Generate_loop_absent todo i p acc :
  Load (chain c) (Prefix_String p) = None →
  Generate_loop rng c todo i p acc = Some acc.
Proof. intros H. destruct todo; simpl; [done|]. by rewrite H. Qed.

(** The loop appends at most [todo] words, and fewer only when it has
    found the key of the prefix it has reached absent. *)
Lemma Generate_loop_Some todo i p acc ws :
  Generate_loop rng c todo i p acc = Some ws →
  ∃ new, ws = acc ++ new
         ∧ len new ≤ Z.of_nat todo
         ∧ (len new < Z.of_nat todo → Load (chain c) (Prefix_String (roll p new)) = None).
Proof.
  revert i p acc. induction todo as [|todo IH]; intros i p acc H; simpl in H.
  { injection H as <-. exists []. rewrite app_nil_r. split_and!; [done|done|].
    unfold len. simpl. lia. }
  destruct (Load (chain c) (Prefix_String p)) as [choices|] eqn:E.
  - destruct (Intn rng i (len choices)) as [k|]; [|done]. simpl in H.
    destruct (index choices k) as [next|]; [|done]. simpl in H.
    destruct (Prefix_Shift p next) as [p'|] eqn:Hsh; [|done]. simpl in H.
    apply Prefix_Shift_Some in Hsh as (x & p0 & -> & ->).
    apply IH in H as (new & -> & Hlen & Hstop).
    exists (next :: new). rewrite <- app_assoc. split_and!; [done| |].
    + rewrite len_cons. lia.
    + rewrite len_cons, roll_cons. intros ?. apply Hstop. lia.
  - injection H as <-. exists []. rewrite app_nil_r, roll_nil.
    split_and!; [done| |done]. unfold len. simpl. lia.
Qed.

Lemma Generate_loop_returns todo i p acc :
  (∀ key choices, Load (chain c) key = Some choices → 0 < len choices) →
  p ≠ [] → ∃ ws, Generate_loop rng c todo i p acc = Some ws.
Proof.
  intros Hne. revert i p acc. induction todo as [|todo IH]; intros i p acc Hp; simpl.
  { by eexists. }
  destruct (Load (chain c) (Prefix_String p)) as [choices|] eqn:E; [|by eexists].
  apply Hne in E. unfold Intn. rewrite bool_decide_eq_true_2 by done. simpl.
  pose proof (Z.mod_pos_bound (rng i) (len choices) E) as Hk.
  unfold index. rewrite bool_decide_eq_true_2 by lia.
  destruct (lookup_lt_is_Some_2 choices (Z.to_nat (rng i `mod` len choices)))
    as [next ->]; [unfold len in *; lia|]. simpl.
  destruct p as [|x p]; [done|]. rewrite Prefix_Shift_cons. simpl.
  apply IH. by destruct p.
Qed.
End GenerateFacts.

(** C8.  On a table some build returned: [Generate] returns the empty
    string when the table is empty, and when [n = 0]; the words it has
    collected when it returns are never more than [n]; its loop ends at
    once, with the words collected so far, when the current prefix key is
    absent, and [Generate] returns fewer than [n] words only when the key
    of the prefix it has reached is absent; and for [prefixLen >= 1] it
    does return. *)
Theorem Generate_boundary (rng : nat → Z) (c : Chain) (n : Z) :
  built c →
  (chain c = ∅ → Generate rng c n = Some "")
  ∧ Generate rng c 0 = Some ""
  ∧ (∀ ws, Generate_words rng c n = Some ws → len ws ≤ Z.max 0 n)
  ∧ (∀ todo i p acc, Load (chain c) (Prefix_String p) = None →
       Generate_loop rng c todo i p acc = Some acc)
  ∧ (∀ ws, Generate_words rng c n = Some ws → len ws < n →
       Load (chain c)
         (Prefix_String (roll (replicate (Z.to_nat (prefixLen c)) "") ws)) = None)
  ∧ (1 ≤ prefixLen c → ∃ ws, Generate_words rng c n = Some ws ∧ len ws ≤ Z.max 0 n).
Proof.
  intros (Hpl & Hne)%built_nonempty.
  assert (∀ ws, Generate_words rng c n = Some ws →
            len ws ≤ Z.max 0 n
            ∧ (len ws < n →
               Load (chain c)
                 (Prefix_String (roll (replicate (Z.to_nat (prefixLen c)) "") ws)) = None))
    as Hws.
  { intros ws. unfold Generate_words, make.
    rewrite bool_decide_eq_true_2 by done. simpl.
    intros (new & -> & Hlen & Hstop)%Generate_loop_Some. simpl.
    split; [lia|]. intros ?. apply Hstop. lia. }
  split_and!.
  - intros Hempty. unfold Generate, Generate_words, make.
    rewrite bool_decide_eq_true_2 by done. simpl.
    rewrite Generate_loop_absent; [done|]. unfold Load. by rewrite Hempty.
  - unfold Generate, Generate_words, make.
    by rewrite bool_decide_eq_true_2 by done.
  - intros ws H. by apply Hws.
  - intros. by apply Generate_loop_absent.
  - intros ws H. by apply Hws.
  - intros Hpos. unfold Generate_words, make in *.
    rewrite bool_decide_eq_true_2 in * by done. simpl in *.
    destruct (Generate_loop_returns rng c (Z.to_nat n) 0%nat
                (replicate (Z.to_nat (prefixLen c)) "") [] Hne) as [ws Hws'].
    { by apply replicate_nonempty. }
    exists ws. split; [done|]. by apply Hws.
Qed.

Lemma simple_table_built : built {| chain := simple_table; prefixLen := 2 |}.
Proof.
  exists one_by_one, simple, 1, 0. split; [apply one_by_one_complete|]. by vm_compute.
Qed.

Lemma Generate_boundary_witness :
  Generate (λ _, 0) {| chain := simple_table; prefixLen := 2 |} 0 = Some ""
  ∧ ∃ ws, Generate_words (λ _, 0) {| chain := simple_table; prefixLen := 2 |} 3 = Some ws
          ∧ len ws ≤ Z.max 0 3.
Proof.
  destruct (Generate_boundary (λ _, 0) {| chain := simple_table; prefixLen := 2 |} 3 simple_table_built)
    as (_ & H0 & _ & _ & _ & Hret).
  split; [exact H0|]. apply Hret. simpl. lia.
Defined.

Example Generate_simple :
  Generate (λ _, 0) {| chain := simple_table; prefixLen := 2 |} 7 = Some "I am not a number! I am".
Proof. by vm_compute. Qed.

(** With the second choice at every step the walk reaches the end of the
    corpus after five words, where the prefix key is absent. *)
Example Generate_simple_exhausted :
  Generate (λ _, 1) {| chain := simple_table; prefixLen := 2 |} 100 = Some "I am a free man!".
Proof. by vm_compute. Qed.

(** ** The correctness test

    The builds of the seven configurations the test runs, with each
    goroutine run to its end in turn: all store [simple_table].  In one
    run in another order the successors of "I am" come out as a, not
    instead of not, a, which is the table [correct] as the test file
    writes it. *)

Example TestSimple : chain <$> Build one_by_one (NewChain 2) simple 1 0 = Some simple_table.
Proof. by vm_compute. Qed.

Example TestSimpleGoLock : chain <$> Build one_by_one (NewChain 2) simple 0 0 = Some simple_table.
Proof. by vm_compute. Qed.

Example TestSimpleGoChannel : chain <$> Build one_by_one (NewChain 2) simple 0 1 = Some simple_table.
Proof. by vm_compute. Qed.

Example TestSimpleGoChannels : chain <$> Build one_by_one (NewChain 2) simple 0 4 = Some simple_table.
Proof. by vm_compute. Qed.

Example TestSimpleTPLock : chain <$> Build one_by_one (NewChain 2) simple 4 0 = Some simple_table.
Proof. by vm_compute. Qed.

Example TestSimpleTPChannel : chain <$> Build one_by_one (NewChain 2) simple 4 1 = Some simple_table.
Proof. by vm_compute. Qed.

Example TestSimpleTPChannels : chain <$> Build one_by_one (NewChain 2) simple 4 4 = Some simple_table.
Proof. by vm_compute. Qed.

Example TestSimpleTPLock_last_first :
  chain <$> Build last_first (NewChain 2) simple 4 0 = Some correct.
Proof. by vm_compute. Qed.

(** * Further properties of the code *)

(** ** Inserts in sequence *)

Lemma Chain_eq (c1 c2 : Chain) :
  chain c1 = chain c2 → prefixLen c1 = prefixLen c2 → c1 = c2.
Proof. destruct c1, c2. simpl. by intros -> ->. Qed.

(** X1. After any sequence of [Insert] calls the collection of a key is
    the one it had before followed by the words inserted under that key,
    in the order of the calls; calls under other keys leave no trace in
    it, and a key with no call is as it was. *)
Theorem run_successors_in_order (c : Chain) (items : list WorkItem) (key : string) :
  successors (run c items) key
  = successors c key ++ (pair_b <$> filter (λ it, pair_a it = key) items)
  ∧ (filter (λ it, pair_a it = key) items = [] →
     Load (chain (run c items)) key = Load (chain c) key)
  ∧ prefixLen (run c items) = prefixLen c.
Proof.
  split_and!.
  - apply successors_run.
  - intros Hnone. rewrite Load_run. unfold sent_to. by rewrite Hnone.
  - apply prefixLen_run.
Qed.

Lemma run_successors_in_order_witness :
  Load (chain (run (NewChain 2) [pair_of "I am" "not"; pair_of "I am" "a"])) "am a"
  = Load (chain (NewChain 2)) "am a".
Proof.
  apply (run_successors_in_order (NewChain 2) [pair_of "I am" "not"; pair_of "I am" "a"] "am a").
  reflexivity.
Defined.

(** X2. Two [Insert] calls under different keys commute: the table is the
    same whichever runs first. *)
Theorem Insert_commute (c : Chain) (k1 k2 w1 w2 : string) :
  k1 ≠ k2 → Insert (Insert c k1 w1) k2 w2 = Insert (Insert c k2 w2) k1 w1.
Proof.
  intros Hne. apply Chain_eq; [|done].
  rewrite !chain_Insert, !successors_Insert.
  rewrite decide_False by done. rewrite decide_False by done.
  by apply insert_insert_ne.
Qed.

Lemma Insert_commute_witness :
  Insert (Insert (NewChain 2) "I am" "not") "am a" "free"
  = Insert (Insert (NewChain 2) "am a" "free") "I am" "not".
Proof. apply Insert_commute. discriminate. Defined.

(** ** The prefix after a scan *)

(** X3. From a non-empty Prefix the scan never panics, calls [emit] once
    per word, and leaves as Prefix the last [len(p)] elements of the old
    Prefix followed by the words: once [len(p)] words are scanned, the
    last [len(p)] words. *)
Theorem scan_final_prefix {S} (emit : S → string → string → S) (st : S)
    (p : Prefix) (words : list string) :
  p ≠ [] →
  ∃ st', scan emit st p words = Some (st', drop (length words) (p ++ words))
         ∧ length (drop (length words) (p ++ words)) = length p
         ∧ ((length p ≤ length words)%nat →
            drop (length words) (p ++ words) = drop (length words - length p) words).
Proof.
  intros Hp. rewrite scan_emit, scan_send_items by done. simpl.
  eexists. split; [done|]. split.
  - rewrite length_drop, length_app. lia.
  - intros Hle. rewrite drop_app_ge by lia. done.
Qed.

Lemma scan_final_prefix_witness :
  ∃ ch, scan send [] [""; ""] ["I"; "am"; "not"] = Some (ch, ["am"; "not"]).
Proof.
  destruct (scan_final_prefix send [] [""; ""] ["I"; "am"; "not"]) as (ch & H & _);
    [discriminate|].
  exists ch. exact H.
Defined.

(** ** What a worker sends *)

Lemma seq_items_head p ws k :
  p ≠ [] → (k < length ws)%nat →
  head (drop k (seq_items p ws))
  = (λ w, pair_of (Prefix_String (roll p (take k ws))) w) <$> ws !! k.
Proof.
  intros Hp Hk. rewrite seq_items_drop by done.
  destruct (lookup_lt_is_Some_2 ws k Hk) as [w Hw].
  by rewrite (drop_S ws w k Hw), Hw.
Qed.

(** X4. A partitioned worker that returns has sent, for a Prefix of one
    or more words, exactly the items the sequential scan produces for the
    positions of its segment, in order: one per word of the segment, the
    first under the key of the [prefixLen] words (or leading empty
    strings) that precede the segment. *)
Theorem worker_sends_segment_items (c : Chain) (words : list string) (s e : Z)
    (g : list WorkItem) :
  1 ≤ prefixLen c → worker c words (s, e) = Some g →
  g = take (Z.to_nat (e - s))
        (drop (Z.to_nat s) (seq_items (replicate (Z.to_nat (prefixLen c)) "") words))
  ∧ len g = e - s
  ∧ (s < e →
     pair_a <$> head g
     = Some (Prefix_String (roll (replicate (Z.to_nat (prefixLen c)) "")
                              (take (Z.to_nat s) words)))).
Proof.
  intros Hpl H.
  pose proof (worker_Some _ _ _ _ H) as (_ & H0 & Hse & He & Hlen). simpl in *.
  pose proof (worker_Some_items _ _ _ _ _ Hpl H) as Hg.
  split_and!; [done..|]. intros Hlt. rewrite Hg.
  replace (Z.to_nat (e - s)) with (S (Z.to_nat (e - s - 1))) by lia.
  destruct (drop (Z.to_nat s) (seq_items _ words)) as [|it rest] eqn:Hd.
  - apply (f_equal length) in Hd. rewrite length_drop, length_seq_items in Hd.
    exfalso. simpl in Hd. unfold len in *. lia.
  - destruct (lookup_lt_is_Some_2 words (Z.to_nat s)) as [w Hw]; [unfold len in *; lia|].
    pose proof (seq_items_head (replicate (Z.to_nat (prefixLen c)) "") words
                  (Z.to_nat s) (replicate_nonempty _ Hpl)) as Hh.
    rewrite Hd, Hw in Hh. simpl in Hh.
    injection Hh as ->; [|unfold len in *; lia]. done.
Qed.

Lemma worker_sends_segment_items_witness :
  pair_a <$> head [pair_of "b c d" "e"; pair_of "c d e" "f"] = Some "b c d".
Proof.
  destruct (worker_sends_segment_items (NewChain 3) ["a"; "b"; "c"; "d"; "e"; "f"] 4 6
              [pair_of "b c d" "e"; pair_of "c d e" "f"]) as (_ & _ & H);
    [simpl; lia|by vm_compute|].
  apply H. lia.
Defined.

(** ** What a build leaves of the table it was given *)



(** ** When a build returns *)

Lemma scan_is_Some {S} (emit : S → string → string → S) st p ws :
  p ≠ [] ∨ ws = [] → is_Some (scan emit st p ws).
Proof.
  intros [Hp| ->]; [|done].
  rewrite scan_emit, scan_send_items by done. done.
Qed.

Lemma scan_empty_prefix {S} (emit : S → string → string → S) st ws :
  is_Some (scan emit st [] ws) → ws = [].
Proof. destruct ws as [|w ws]; [done|]. simpl. by intros [? ?]. Qed.

Lemma BuildSeq_is_Some c words :
  is_Some (BuildSeq c words) ↔ 0 ≤ prefixLen c ∧ (1 ≤ prefixLen c ∨ words = []).
Proof.
  unfold BuildSeq, make. split.
  - case_bool_decide as Hpl; [|by intros [? ?]]. simpl. intros Hs.
    split; [done|].
    destruct (decide (1 ≤ prefixLen c)) as [|Hz]; [by left|right].
    assert (prefixLen c = 0) as Hz' by lia. rewrite Hz' in Hs. simpl in Hs.
    destruct (scan Insert c [] words) as [r|] eqn:E; [|by destruct Hs].
    apply (scan_empty_prefix Insert c). by rewrite E.
  - intros (Hpl & Hok). rewrite bool_decide_eq_true_2 by done. simpl.
    destruct (scan_is_Some Insert c (replicate (Z.to_nat (prefixLen c)) "") words)
      as [r ->]; [|done].
    destruct Hok as [?| ->]; [left; by apply replicate_nonempty|by right].
Qed.

Lemma go_words_is_Some c words :
  0 ≤ prefixLen c → prefixLen c ≤ len words → is_Some (go_words c words).
Proof.
  intros H0 Hle. unfold go_words. apply mapM_is_Some_2, Forall_forall.
  intros idx Hidx%elem_of_seqZ. unfold go_word. simpl.
  rewrite slice_window by lia. simpl.
  destruct (proj2 (index_is_Some words idx)) as [w ->]; [lia|]. done.
Qed.

Lemma seed_slice (c : Chain) (words : list string) :
  0 ≤ prefixLen c → prefixLen c ≤ len words →
  slice words 0 (prefixLen c) = Some (take (Z.to_nat (prefixLen c)) words).
Proof.
  intros. unfold slice. rewrite bool_decide_eq_true_2 by lia.
  by rewrite Z.sub_0_r, drop_0.
Qed.

Lemma seed_prefix_ok (pl : Z) (words : list string) :
  0 ≤ pl → replicate (Z.to_nat pl) "" ≠ ([] : Prefix) ∨ take (Z.to_nat pl) words = [].
Proof.
  intros. destruct (decide (pl = 0)) as [->|]; [by right|].
  left. apply replicate_nonempty. lia.
Qed.

Lemma BuildGoLock_is_Some sched c words :
  is_Some (BuildGoLock sched c words) ↔ 0 ≤ prefixLen c ∧ prefixLen c ≤ len words.
Proof.
  unfold BuildGoLock. split.
  - destruct (make (prefixLen c)) as [p|] eqn:Hmk; [|by intros [? ?]]. simpl.
    apply make_Some in Hmk as (Hpl & _ & _).
    destruct (slice words 0 (prefixLen c)) as [seed|] eqn:Hsl; [|by intros [? ?]].
    apply slice_Some in Hsl as (_ & _ & Hle & _). done.
  - intros (Hpl & Hle). unfold make. rewrite bool_decide_eq_true_2 by done. simpl.
    rewrite seed_slice by done. simpl.
    destruct (scan_is_Some Insert c (replicate (Z.to_nat (prefixLen c)) "")
                (take (Z.to_nat (prefixLen c)) words)) as [r ->];
      [by apply seed_prefix_ok|]. simpl.
    destruct (go_words_is_Some c words Hpl Hle) as [gs ->]. done.
Qed.

Lemma drain_is_Some sched capacity inserters c ch :
  inserters ≠ 0 → is_Some (drain sched capacity inserters c ch) ↔ 0 < inserters.
Proof.
  intros Hne. unfold drain. repeat case_bool_decide; split; try done; try lia.
  all: by intros [? ?].
Qed.

Lemma BuildGoChannels_is_Some sched c words inserters :
  inserters ≠ 0 →
  is_Some (BuildGoChannels sched c words inserters)
  ↔ 0 ≤ prefixLen c ∧ prefixLen c ≤ len words ∧ prefixLen c ≤ 8 ∧ 0 < inserters.
Proof.
  intros Hne. unfold BuildGoChannels. split.
  - destruct (make (prefixLen c)) as [p|] eqn:Hmk; [|by intros [? ?]]. simpl.
    apply make_Some in Hmk as (Hpl & _ & _).
    destruct (slice words 0 (prefixLen c)) as [seed|] eqn:Hsl; [|by intros [? ?]].
    apply slice_Some in Hsl as (_ & _ & Hle & _ & Hseed). simpl.
    destruct (scan send [] p seed) as [r|] eqn:Hsc; [|by intros [? ?]]. simpl.
    apply scan_send_len in Hsc.
    case_bool_decide as Hcap; [|by intros [? ?]].
    destruct (go_words c words) as [gs|]; [|by intros [? ?]]. simpl.
    intros Hd%drain_is_Some; [|done].
    split_and!; [done|done| |done]. rewrite Hsc in Hcap. unfold len in Hcap at 1.
    simpl in Hcap. lia.
  - intros (Hpl & Hle & Hcap & HI). unfold make.
    rewrite bool_decide_eq_true_2 by done. simpl.
    rewrite seed_slice by done. simpl.
    destruct (scan send [] (replicate (Z.to_nat (prefixLen c)) "")
                (take (Z.to_nat (prefixLen c)) words)) as [r|] eqn:Hsc.
    2:{ destruct (scan_is_Some send [] (replicate (Z.to_nat (prefixLen c)) "")
                    (take (Z.to_nat (prefixLen c)) words)) as [r Hr];
          [by apply seed_prefix_ok|congruence]. }
    simpl. apply scan_send_len in Hsc.
    rewrite bool_decide_eq_true_2.
    + destruct (go_words_is_Some c words Hpl Hle) as [gs ->]. simpl.
      by apply drain_is_Some.
    + rewrite Hsc. unfold len. simpl. rewrite length_take. lia.
Qed.

Lemma worker_prefix_Some_inv c words start :
  is_Some (worker_prefix c words start) → start ≠ 0 → 1 ≤ prefixLen c →
  prefixLen c ≤ start ∧ start ≤ len words.
Proof.
  intros [p H] Hne Hpl. unfold worker_prefix in H.
  destruct (make (prefixLen c)) as [p0|]; [|done]. simpl in H.
  rewrite bool_decide_eq_true_2 in H by done.
  pose proof (context_loop_reads _ _ _ _ _ _ H) as Hreads.
  pose proof (Hreads 0 ltac:(apply elem_of_seqZ; lia)) as H1%index_is_Some.
  pose proof (Hreads (prefixLen c - 1) ltac:(apply elem_of_seqZ; lia)) as H2%index_is_Some.
  lia.
Qed.

Lemma worker_prefix_empty c words start p :
  prefixLen c = 0 → worker_prefix c words start = Some p → p = [].
Proof.
  intros Hz. unfold worker_prefix, make. rewrite Hz. simpl.
  case_bool_decide; by intros [= <-].
Qed.

Lemma worker_nonempty_segment c words s e :
  is_Some (worker c words (s, e)) → s < e → 1 ≤ prefixLen c.
Proof.
  intros [g H] Hlt.
  pose proof (worker_Some _ _ _ _ H) as (Hpl & _). 
  destruct (decide (1 ≤ prefixLen c)) as [|Hz]; [done|exfalso].
  assert (prefixLen c = 0) as Hz' by lia.
  unfold worker in H. simpl in H.
  destruct (worker_prefix c words s) as [p|] eqn:Hp; [|done]. simpl in H.
  apply worker_prefix_empty in Hp as ->; [|done].
  destruct (slice words s e) as [seg|] eqn:Hsl; [|done]. simpl in H.
  apply slice_Some in Hsl as (_ & _ & _ & _ & Hlen).
  destruct (scan send [] [] seg) as [r|] eqn:Hsc; [|done].
  assert (seg = []) as -> by (apply (scan_empty_prefix send []); by rewrite Hsc).
  unfold len in Hlen. simpl in Hlen. lia.
Qed.

Lemma worker_empty_corpus c se :
  0 ≤ prefixLen c → se = (0, 0) → worker c [] se = Some [].
Proof.
  intros Hpl ->. unfold worker, worker_prefix, make. simpl.
  by rewrite bool_decide_eq_true_2 by done.
Qed.

Lemma perWorker_zero workers : 0 < workers → perWorker 0 workers = 0.
Proof.
  intros. pose proof (perWorker_ceil 0 workers ltac:(lia) ltac:(lia)).
  pose proof (perWorker_nonneg 0 workers ltac:(lia) ltac:(lia)). nia.
Qed.

Lemma workers_of_is_Some c words workers :
  is_Some (workers_of c words workers)
  ↔ 0 < workers ∧ 0 ≤ prefixLen c
    ∧ (len words = 0
       ∨ (1 ≤ prefixLen c
          ∧ (workers = 1
             ∨ (prefixLen c ≤ perWorker (len words) workers
                ∧ perWorker (len words) workers * (workers - 1) ≤ len words)))).
Proof.
  pose proof (len_nonneg words) as Hn.
  unfold workers_of. case_bool_decide as HW; [|split; [by intros [? ?]|lia]].
  pose proof (perWorker_ceil _ _ Hn HW) as Hceil.
  pose proof (perWorker_nonneg _ _ Hn HW) as Hpw.
  remember (perWorker (len words) workers) as pw eqn:Epw.
  split.
  - intros Hall. rewrite mapM_is_Some, Forall_forall in Hall.
    assert (∀ i, 0 ≤ i → i < workers →
              is_Some (worker c words (pw * i, Z.min (pw * (i + 1)) (len words)))) as Hw.
    { intros i H0 Hi. apply (Hall (segment (len words) pw i)).
      unfold segments. rewrite <- Epw. apply list_elem_of_fmap. exists i.
      split; [done|]. apply elem_of_seqZ. lia. }
    clear Hall.
    pose proof (Hw 0 ltac:(lia) ltac:(lia)) as Hw0.
    destruct Hw0 as [g0 Hg0].
    pose proof (worker_Some _ _ _ _ Hg0) as (Hpl & _).
    split_and!; [done..|].
    destruct (decide (len words = 0)) as [|Hpos]; [by left|right].
    assert (1 ≤ pw) by nia.
    assert (1 ≤ prefixLen c) as Hpl1.
    { apply (worker_nonempty_segment c words (pw * 0) (Z.min (pw * (0 + 1)) (len words)));
        [by eexists|]. apply Z.min_glb_lt; lia. }
    split; [done|].
    destruct (decide (workers = 1)) as [|HW1]; [by left|right].
    assert (∀ i, 1 ≤ i → i < workers → prefixLen c ≤ pw * i ∧ pw * i ≤ len words) as Hi.
    { intros i H1 Hi. destruct (Hw i ltac:(lia) Hi) as [g Hg].
      apply (worker_prefix_Some_inv c words (pw * i)); [|nia|done].
      unfold worker in Hg. simpl in Hg.
      destruct (worker_prefix c words (pw * i)); [done|done]. }
    pose proof (Hi 1 ltac:(lia) ltac:(lia)).
    pose proof (Hi (workers - 1) ltac:(lia) ltac:(lia)). lia.
  - intros (_ & Hpl & Hok).
    destruct Hok as [Hz|(Hpl1 & Hseg)].
    + assert (words = []) as -> by (destruct words; [done|unfold len in Hz; simpl in Hz; lia]).
      apply mapM_is_Some_2, Forall_forall. intros se Hse. simpl.
      rewrite worker_empty_corpus; [done..|].
      unfold segments in Hse. apply list_elem_of_fmap in Hse as (i & -> & _).
      change (len []) with 0. rewrite perWorker_zero by done.
      unfold segment. f_equal; lia.
    + destruct (workers_of_items c words workers Hpl1 HW) as (gs & Hgs & _).
      { right. by rewrite <- Epw. }
      unfold workers_of in Hgs. rewrite bool_decide_eq_true_2 in Hgs by done.
      by rewrite Hgs.
Qed.

Lemma BuildTP_is_Some sched c words workers inserters :
  is_Some (BuildTP sched c words workers inserters)
  ↔ is_Some (workers_of c words workers) ∧ 0 ≤ inserters.
Proof.
  unfold BuildTP, BuildTPChannel, BuildTPLock, BuildTPChannels.
  destruct (workers_of c words workers) as [gs|]; simpl.
  - case_bool_decide as H0; [split; [intros _; split; [done|lia]|done]|].
    assert (∀ i, i ≠ 0 →
      is_Some (drain sched workers i c (sched gs)) ↔ is_Some (Some gs) ∧ 0 ≤ i) as Hd.
    { intros i Hi. rewrite drain_is_Some by done. split; [intros; split; [done|lia]|].
      intros [_ ?]. lia. }
    case_bool_decide; [subst inserters|]; by apply Hd.
  - repeat case_bool_decide; split; try (by intros [? ?]); by intros [[? ?] _].
Qed.

Lemma Build_is_Some_iff sched (c : Chain) (words : list string) (W I : Z) :
  is_Some (Build sched c words W I) ↔ Build_returns (prefixLen c) (len words) W I.
Proof.
  pose proof (len_nonneg words) as Hn.
  assert (words = [] ↔ len words = 0) as Hnil.
  { destruct words; [done|]. unfold len. simpl. split; [done|lia]. }
  unfold Build, Build_returns.
  case_bool_decide as HW1.
  { rewrite BuildSeq_is_Some, Hnil. split; [intros [? ?]; split; [done|by left]|].
    intros (? & [(_ & ?)|[(? & _)|(? & _)]]); [done|lia..]. }
  case_bool_decide as HW0.
  - unfold BuildGo, BuildGoChannel. case_bool_decide as HI0.
    + rewrite BuildGoLock_is_Some. split.
      * intros [? ?]. split; [done|]. right; left. split_and!; [done..|by left].
      * intros (? & [(? & _)|[(_ & ? & _)|(? & _)]]); [done|done|lia].
    + assert (is_Some (BuildGoChannels sched c words I)
              ↔ 0 ≤ prefixLen c
                ∧ (W = 1 ∧ (1 ≤ prefixLen c ∨ len words = 0)
                   ∨ W = 0 ∧ prefixLen c ≤ len words ∧ (I = 0 ∨ 0 < I ∧ prefixLen c ≤ 8)
                   ∨ 1 < W ∧ 0 ≤ I
                     ∧ (len words = 0
                        ∨ 1 ≤ prefixLen c ∧ prefixLen c ≤ perWorker (len words) W
                          ∧ perWorker (len words) W * (W - 1) ≤ len words))) as HB.
      { rewrite BuildGoChannels_is_Some by done. split.
        - intros (? & ? & ? & ?). split; [done|]. right; left.
          split_and!; [done..|by right].
        - intros (? & [(? & _)|[(_ & ? & [?|[? ?]])|(? & _)]]); [done|done|done|lia]. }
      case_bool_decide; [subst I|]; exact HB.
  - rewrite BuildTP_is_Some, workers_of_is_Some. split.
    + intros ((? & ? & Hok) & ?). split; [done|]. right; right.
      split_and!; [lia|done|].
      destruct Hok as [?|(? & [?|[? ?]])]; [by left|done|by right].
    + intros (? & [(? & _)|[(? & _)|(? & ? & Hok)]]); [done|done|].
      split_and!; [lia|done| |done].
      destruct Hok as [?|(? & ? & ?)]; [by left|right]. split; [done|by right].
Qed.


(** The goroutine-per-word build with a channel deadlocks in its seed
    loop for every [prefixLen] above 8, and the three goroutine-per-word
    builds return where the sequential scan panics, for [prefixLen = 0]. *)
Example Build_returns_edge_cases :
  (∀ sched, Build sched (NewChain 9) (replicate 12 "w") 0 1 = None)
  ∧ (∀ sched, is_Some (Build sched (NewChain 9) (replicate 12 "w") 0 0))
  ∧ (∀ sched, is_Some (Build sched (NewChain 0) ["a"; "b"] 0 4))
  ∧ (∀ sched, Build sched (NewChain 0) ["a"; "b"] 1 0 = None).
Proof.
  split_and!; intros sched.
  - apply eq_None_not_Some. rewrite Build_is_Some_iff. unfold Build_returns.
    change (len (replicate 12 "w")) with 12. simpl. lia.
  - apply Build_is_Some_iff. unfold Build_returns.
    change (len (replicate 12 "w")) with 12. simpl. lia.
  - apply Build_is_Some_iff. unfold Build_returns.
    change (len ["a"; "b"]) with 2. simpl. lia.
  - apply eq_None_not_Some. rewrite Build_is_Some_iff. unfold Build_returns.
    change (len ["a"; "b"]) with 2. simpl. lia.
Qed.

(** ** What a built table holds *)

Lemma seq_items_lookup p ws i :
  p ≠ [] →
  seq_items p ws !! i = (λ w, pair_of (Prefix_String (roll p (take i ws))) w) <$> ws !! i.
Proof.
  intros Hp. destruct (decide (i < length ws)%nat) as [Hi|Hi].
  - rewrite <- (seq_items_head p ws i Hp Hi).
    rewrite head_lookup, lookup_drop. f_equal. lia.
  - rewrite !lookup_ge_None_2; [done|lia|rewrite length_seq_items; lia].
Qed.

Lemma elem_of_sent_to key w items : w ∈ sent_to key items ↔ pair_of key w ∈ items.
Proof.
  unfold sent_to. rewrite list_elem_of_fmap. split.
  - intros ([k w'] & -> & [Hk Hin]%list_elem_of_filter). simpl in *. by subst.
  - intros Hin. exists (pair_of key w). split; [done|].
    apply list_elem_of_filter. done.
Qed.

Lemma Build_returns_ok pl n W I : 1 ≤ pl → Build_returns pl n W I → Build_ok pl n W I.
Proof.
  unfold Build_returns, Build_ok. intros Hpl (_ & H). split; [done|].
  destruct H as [(? & _)|[?|(? & ? & [?|(_ & ? & ?)])]]; [by left|by right; left|..].
  - right; right. split_and!; [done..|by left].
  - right; right. split_and!; [done..|by right].
Qed.

Lemma built_table_items sched pl words W I c' :
  complete sched → 1 ≤ pl →
  Build sched (NewChain pl) words W I = Some c' →
  ∀ key, successors c' key ≡ₚ sent_to key (seq_items (replicate (Z.to_nat pl) "") words).
Proof.
  intros Hs Hpl HB key.
  assert (Build_ok pl (len words) W I) as Hok.
  { apply Build_returns_ok; [done|].
    apply (Build_is_Some_iff sched (NewChain pl) words W I). by rewrite HB. }
  destruct (Build_items sched Hs (NewChain pl) words W I Hok) as (items & HB' & Hp).
  rewrite HB in HB'. injection HB' as ->.
  rewrite successors_run. simpl. by apply sent_to_Permutation.
Qed.



(** ** The comparison of the correctness test *)

Lemma sort_Slice_Permutation v : sort_Slice v ≡ₚ v.
Proof. apply merge_sort_Permutation. Qed.

Lemma sort_Slice_Sorted v : StronglySorted String.le (sort_Slice v).
Proof. apply (StronglySorted_merge_sort String.le). Qed.

(** The sorted permutation of a [[]string] is unique: any sort gives it. *)
Lemma sort_Slice_unique v v' :
  StronglySorted String.le v' → v' ≡ₚ v → v' = sort_Slice v.
Proof.
  intros Hsorted Hperm. apply (StronglySorted_unique String.le); [done| |].
  - apply sort_Slice_Sorted.
  - by rewrite Hperm, sort_Slice_Permutation.
Qed.

Lemma sort_Slice_eq_iff v1 v2 : sort_Slice v1 = sort_Slice v2 ↔ v1 ≡ₚ v2.
Proof.
  split.
  - intros H. by rewrite <- (sort_Slice_Permutation v1), H, sort_Slice_Permutation.
  - intros H. apply sort_Slice_unique; [apply sort_Slice_Sorted|].
    by rewrite sort_Slice_Permutation.
Qed.

Lemma Equal_true_iff (m1 m2 : gmap string (list string)) :
  Equal m1 m2 = true
  ↔ ∀ key, match m1 !! key, m2 !! key with
           | Some v1, Some v2 => v1 ≡ₚ v2
           | None, None => True
           | _, _ => False
           end.
Proof.
  unfold Equal. rewrite bool_decide_eq_true. split.
  - intros Heq key. apply (f_equal (λ m : gmap string (list string), m !! key)) in Heq.
    rewrite lookup_fmap, map_lookup_imap in Heq.
    destruct (m1 !! key) as [v1|], (m2 !! key) as [v2|]; simpl in Heq; try done.
    injection Heq as Heq. by apply sort_Slice_eq_iff.
  - intros H. apply map_eq. intros key. specialize (H key).
    rewrite lookup_fmap, map_lookup_imap.
    destruct (m1 !! key) as [v1|], (m2 !! key) as [v2|]; simpl; try done.
    f_equal. by apply sort_Slice_eq_iff.
Qed.

(** X9. [Equal], the comparison of the correctness test, is true exactly
    when the two maps have the same keys and hold under each key the same
    words with the same multiplicities, in any order. *)
Theorem Equal_iff_same_multisets (m1 m2 : gmap string (list string)) :
  Equal m1 m2 = true
  ↔ ∀ key, match m1 !! key, m2 !! key with
           | Some v1, Some v2 => v1 ≡ₚ v2
           | None, None => True
           | _, _ => False
           end.
Proof. apply Equal_true_iff. Qed.

Example Equal_order : Equal simple_table correct = true.
Proof. by vm_compute. Qed.

Example Equal_lost_word : Equal (<["I am" := ["not"]]> simple_table) correct = false.
Proof. by vm_compute. Qed.

Example Equal_missing_key : Equal (delete " " simple_table) correct = false.
Proof. by vm_compute. Qed.

(** X10. When the calls of [Insert] do not overlap, the order in which
    they take effect cannot change the verdict of the correctness test:
    inside [Build_ok], with the inserts taking effect one at a time in
    any order, [Equal] finds the table of any strategy equal to the table
    of the sequential scan of the same words.  Calls that overlap can
    make the test fail ([RunTest_simple]). *)
Theorem Build_passes_Equal sched (c : Chain) (words : list string) (W I : Z) :
  complete sched → Build_ok (prefixLen c) (len words) W I →
  ∃ c1 c2, BuildSeq c words = Some c1
           ∧ Build sched c words W I = Some c2
           ∧ Equal (chain c2) (chain c1) = true.
Proof.
  intros Hs Hok.
  destruct (Build_items sched Hs c words W I Hok) as (items & HB & Hp).
  exists (run c (seq_items (replicate (Z.to_nat (prefixLen c)) "") words)), (run c items).
  split_and!; [apply BuildSeq_items; apply Hok|done|].
  apply Equal_true_iff. by apply (run_Permutation c).
Qed.

Lemma Build_passes_Equal_witness :
  ∃ c1 c2, BuildSeq (NewChain 2) simple = Some c1
           ∧ Build last_first (NewChain 2) simple 4 4 = Some c2
           ∧ Equal (chain c2) (chain c1) = true.
Proof.
  apply (Build_passes_Equal last_first (NewChain 2) simple 4 4 last_first_complete).
  unfold Build_ok. change (prefixLen (NewChain 2)) with 2.
  change (len simple) with 10. change (perWorker 10 4) with 3. lia.
Defined.

(** ** Prefix keys *)

Lemma app_space_inj (x y s t : string) :
  no_space x = true → no_space y = true →
  x +:+ " " +:+ s = y +:+ " " +:+ t → x = y ∧ s = t.
Proof.
  change (" " +:+ s) with (String " "%char s).
  change (" " +:+ t) with (String " "%char t).
  revert y. induction x as [|a x IH]; intros [|b y] Hx Hy H.
  - change (String " "%char s = String " "%char t) in H. by injection H as ->.
  - change (String " "%char s = String b (y +:+ String " "%char t)) in H.
    injection H as <- _. simpl in Hy. done.
  - change (String a (x +:+ String " "%char s) = String " "%char t) in H.
    injection H as -> _. simpl in Hx. done.
  - change (String a (x +:+ String " "%char s) = String b (y +:+ String " "%char t)) in H.
    injection H as -> H. simpl in Hx, Hy.
    apply andb_true_iff in Hx as [_ Hx]. apply andb_true_iff in Hy as [_ Hy].
    destruct (IH y Hx Hy H) as [-> ->]. done.
Qed.

Lemma Prefix_String_inj_aux (p q : Prefix) :
  Forall (λ w, no_space w = true) p → Forall (λ w, no_space w = true) q →
  length p = length q → Prefix_String p = Prefix_String q → p = q.
Proof.
  unfold Prefix_String. intros Hp. revert q.
  induction Hp as [|x p Hx Hp IH]; intros q Hq Hlen H.
  { by destruct q. }
  destruct Hq as [|y q Hy Hq]; [done|].
  destruct p as [|x2 p], q as [|y2 q]; try done.
  { simpl in H. by subst. }
  rewrite !Join_cons_cons in H.
  apply app_space_inj in H as [-> H]; [|done..].
  f_equal. apply IH; [done| |done]. simpl in *. lia.
Qed.

(** X11. Two Prefixes of the same length whose words contain no space (as
    all words read by [strings.Fields], and the empty strings of a fresh
    Prefix) have the same key only if they are the same Prefix: distinct
    windows of the corpus never share an entry of the table. *)
Theorem Prefix_String_injective (p q : Prefix) :
  Forall (λ w, no_space w = true) p → Forall (λ w, no_space w = true) q →
  length p = length q → Prefix_String p = Prefix_String q → p = q.
Proof. apply Prefix_String_inj_aux. Qed.

Lemma Prefix_String_injective_witness :
  Prefix_String [""; "I"] = " I" ∧ [""; "I"] = ([""; "I"] : Prefix).
Proof.
  split; [reflexivity|].
  apply (Prefix_String_injective [""; "I"] [""; "I"]);
    [by repeat constructor|by repeat constructor|reflexivity|reflexivity].
Defined.

(** With a space inside a word, or with different lengths, keys do
    collide. *)
Example Prefix_String_collisions :
  Prefix_String ["a b"; "c"] = Prefix_String ["a"; "b c"]
  ∧ Prefix_String [] = Prefix_String [""].
Proof. split; reflexivity. Qed.

(** ** The words Generate emits *)

Lemma Generate_loop_walk rng c todo i p acc ws :
  Generate_loop rng c todo i p acc = Some ws →
  ∃ new, ws = acc ++ new
         ∧ ∀ (j : nat) w, new !! j = Some w →
             w ∈ successors c (Prefix_String (roll p (take j new))).
Proof.
  revert i p acc. induction todo as [|todo IH]; intros i p acc H; simpl in H.
  { injection H as <-. exists []. rewrite app_nil_r. split; [done|]. by intros j w. }
  destruct (Load (chain c) (Prefix_String p)) as [choices|] eqn:E.
  - destruct (Intn rng i (len choices)) as [k|]; [|done]. simpl in H.
    destruct (index choices k) as [next|] eqn:Hnext; [|done]. simpl in H.
    destruct (Prefix_Shift p next) as [p'|] eqn:Hsh; [|done]. simpl in H.
    apply Prefix_Shift_Some in Hsh as (x & p0 & -> & ->).
    apply IH in H as (new & -> & Hwalk).
    exists (next :: new). rewrite <- app_assoc. split; [done|].
    intros [|j] w Hw; simpl in Hw.
    + injection Hw as <-. rewrite take_0, roll_nil.
      unfold successors. rewrite E. simpl.
      unfold index in Hnext. case_bool_decide; [|done].
      by eapply list_elem_of_lookup_2.
    + simpl. rewrite roll_cons. by apply Hwalk.
  - injection H as <-. exists []. rewrite app_nil_r. split; [done|]. by intros j w.
Qed.

Lemma Generate_words_walk rng c n ws :
  Generate_words rng c n = Some ws →
  ∀ (j : nat) w, ws !! j = Some w →
    w ∈ successors c
          (Prefix_String (drop j (replicate (Z.to_nat (prefixLen c)) "" ++ take j ws))).
Proof.
  unfold Generate_words. destruct (make (prefixLen c)) as [p|] eqn:Hmk; [|done]. simpl.
  apply make_Some in Hmk as (_ & -> & _).
  intros (new & -> & Hwalk)%Generate_loop_walk j w Hw. simpl in *.
  specialize (Hwalk j w Hw). unfold roll in Hwalk.
  rewrite length_take, Nat.min_l in Hwalk; [done|].
  apply lookup_lt_Some in Hw. lia.
Qed.

(** X12. Whatever the table and the random draws, every word [Generate]
    has collected is one of the successors the table stores under the key
    of the Prefix at that point: the [prefixLen] words emitted just
    before it, with empty strings before the first. *)
Theorem Generate_follows_table (rng : nat → Z) (c : Chain) (n : Z) (ws : list string) :
  Generate_words rng c n = Some ws →
  ∀ (j : nat) w, ws !! j = Some w →
    w ∈ successors c
          (Prefix_String (drop j (replicate (Z.to_nat (prefixLen c)) "" ++ take j ws))).
Proof. apply Generate_words_walk. Qed.

Lemma Generate_follows_table_witness :
  "not" ∈ successors {| chain := simple_table; prefixLen := 2 |} "I am".
Proof.
  apply (Generate_follows_table (λ _, 0) {| chain := simple_table; prefixLen := 2 |} 3
           ["I"; "am"; "not"] eq_refl 2%nat "not" eq_refl).
Defined.

Lemma built_successors_mem sched pl words W I c' key w :
  complete sched → 1 ≤ pl →
  Build sched (NewChain pl) words W I = Some c' →
  w ∈ successors c' key
  ↔ ∃ i : nat, words !! i = Some w
      ∧ key = Prefix_String (drop i (replicate (Z.to_nat pl) "" ++ take i words)).
Proof.
  intros Hs Hpl HB.
  rewrite (built_table_items sched pl words W I c' Hs Hpl HB key).
  rewrite elem_of_sent_to, list_elem_of_lookup. split.
  - intros [i Hi]. rewrite seq_items_lookup in Hi by (by apply replicate_nonempty).
    destruct (words !! i) as [w'|] eqn:Hw; [|done]. simpl in Hi.
    injection Hi as <- ->. exists i. split; [done|].
    unfold roll. rewrite length_take, Nat.min_l; [done|].
    apply lookup_lt_Some in Hw. lia.
  - intros (i & Hw & ->). exists i.
    rewrite seq_items_lookup by (by apply replicate_nonempty). rewrite Hw. simpl.
    unfold roll. rewrite length_take, Nat.min_l; [done|].
    apply lookup_lt_Some in Hw. lia.
Qed.

(** X13. A text generated from a table built from a corpus, for a Prefix
    of one or more words, only makes steps the corpus makes: each word of
    the text stands somewhere in the corpus after a window with the same
    key as the [prefixLen] words that precede it in the text. *)
Theorem Generate_follows_corpus sched (rng : nat → Z) (pl : Z) (words : list string)
    (W I : Z) (c' : Chain) (n : Z) (ws : list string) :
  complete sched → 1 ≤ pl →
  Build sched (NewChain pl) words W I = Some c' →
  Generate_words rng c' n = Some ws →
  ∀ (j : nat) w, ws !! j = Some w →
    ∃ i : nat, words !! i = Some w
      ∧ Prefix_String (drop j (replicate (Z.to_nat pl) "" ++ take j ws))
        = Prefix_String (drop i (replicate (Z.to_nat pl) "" ++ take i words)).
Proof.
  intros Hs Hpl HB HG j w Hw.
  assert (prefixLen c' = pl) as Hpl'.
  { apply Build_inserts in HB as (_ & items & -> & _); [|done]. apply prefixLen_run. }
  pose proof (Generate_words_walk rng c' n ws HG j w Hw) as Hin.
  rewrite Hpl' in Hin.
  by apply (built_successors_mem sched pl words W I c' _ w Hs Hpl HB) in Hin.
Qed.

Lemma Generate_follows_corpus_witness :
  ∃ i : nat, simple !! i = Some "a"
    ∧ Prefix_String (drop 2 (replicate (Z.to_nat 2) "" ++ take 2 ["I"; "am"; "a"; "free"; "man!"]))
      = Prefix_String (drop i (replicate (Z.to_nat 2) "" ++ take i simple)).
Proof.
  apply (Generate_follows_corpus one_by_one (λ _, 1) 2 simple 1 0
           {| chain := simple_table; prefixLen := 2 |} 100 ["I"; "am"; "a"; "free"; "man!"]
           one_by_one_complete ltac:(lia) ltac:(by vm_compute) ltac:(by vm_compute)
           2%nat "a" eq_refl).
Defined.

(** ** Insert calls that overlap *)

Lemma interleave_app s1 s2 m gs :
  interleave (s1 ++ s2) m gs
  = let '(m', gs') := interleave s1 m gs in interleave s2 m' gs'.
Proof.
  revert m gs. induction s1 as [|i s1 IH]; intros m gs; simpl.
  { by destruct (interleave s2 m gs). }
  destruct (gs !! i) as [g|]; [|apply IH].
  destruct (insert_step m g) as [m' g']. apply IH.
Qed.

Lemma lost_update_schedule (m : syncMap) (key a b : string) :
  interleave [0; 1; 0; 0; 1; 1]%nat m [calling key a; calling key b]
  = (<[key := default [] (m !! key) ++ [b]]> m,
     [{| ins_key := key; ins_word := a; ins_pc := Returned |};
      {| ins_key := key; ins_word := b; ins_pc := Returned |}]).
Proof.
  simpl. unfold insert_step, LoadOrStore, Delete, Load. simpl.
  rewrite lookup_delete_eq. simpl.
  rewrite lookup_delete_eq. simpl.
  rewrite delete_insert_eq, delete_delete_eq, insert_delete_eq.
  unfold append_word. by destruct (m !! key).
Qed.

(** X14. Two calls of [Insert] on the same key that overlap can lose a
    word, whatever the table, the key and the words: when both goroutines
    load before either stores, the [Delete] of the second removes what the
    first stored, both calls return, and the key maps to its old
    successors followed by the second word only. *)
Theorem Insert_lost_update (m : syncMap) (key a b : string) :
  interleave [0; 1; 0; 0; 1; 1]%nat m [calling key a; calling key b]
  = (<[key := default [] (m !! key) ++ [b]]> m,
     [{| ins_key := key; ins_word := a; ins_pc := Returned |};
      {| ins_key := key; ins_word := b; ins_pc := Returned |}]).
Proof. apply lost_update_schedule. Qed.

Lemma steps_of_snoc_eq i s : steps_of i (s ++ [i]) = S (steps_of i s).
Proof.
  unfold steps_of. rewrite filter_app, length_app, filter_cons_True by done.
  simpl. lia.
Qed.

Lemma steps_of_snoc_ne i j s : j ≠ i → steps_of i (s ++ [j]) = steps_of i s.
Proof.
  intros Hne. unfold steps_of. rewrite filter_app, length_app, filter_cons_False by done.
  simpl. lia.
Qed.

Lemma insert_step_after m key word values n :
  m !! key = value_after values word n →
  ∃ m',
    insert_step m {| ins_key := key; ins_word := word; ins_pc := pc_after values word n |}
    = (m', {| ins_key := key; ins_word := word; ins_pc := pc_after values word (S n) |})
    ∧ m' !! key = value_after values word (S n)
    ∧ ∀ k, k ≠ key → m' !! k = m !! k.
Proof.
  intros Hm. destruct n as [|[|[|n]]]; simpl in Hm.
  - exists m. unfold insert_step, Load. simpl. by rewrite Hm.
  - exists (delete key m). unfold insert_step, Delete. simpl.
    split_and!; [done|apply lookup_delete_eq|].
    intros k Hk. by apply lookup_delete_ne.
  - exists (<[key := append_word values word]> m).
    unfold insert_step, LoadOrStore. simpl. rewrite Hm.
    split_and!; [done|apply lookup_insert_eq|].
    intros k Hk. by apply lookup_insert_ne.
  - exists m. by unfold insert_step.
Qed.

Lemma interleave_distinct_keys (m : syncMap) (items : list WorkItem) (s : list nat) :
  NoDup (pair_a <$> items) →
  ∃ m' gs',
    interleave s m (calling_item <$> items) = (m', gs')
    ∧ length gs' = length items
    ∧ (∀ (i : nat) it, items !! i = Some it →
         gs' !! i = Some {| ins_key := pair_a it; ins_word := pair_b it;
                            ins_pc := pc_after (m !! pair_a it) (pair_b it) (steps_of i s) |}
         ∧ m' !! pair_a it = value_after (m !! pair_a it) (pair_b it) (steps_of i s))
    ∧ (∀ k, k ∉ pair_a <$> items → m' !! k = m !! k).
Proof.
  intros Hnd. induction s as [|j s IH] using rev_ind.
  { exists m, (calling_item <$> items). split_and!; [done|apply length_fmap| |done].
    intros i it Hi. by rewrite list_lookup_fmap, Hi. }
  destruct IH as (m' & gs' & E & Hlen & Hinv & Hout).
  rewrite interleave_app, E. simpl.
  destruct (gs' !! j) as [g|] eqn:Hg.
  - assert (is_Some (items !! j)) as [it Hit].
    { apply lookup_lt_is_Some. rewrite <- Hlen. by eapply lookup_lt_Some. }
    destruct (Hinv j it Hit) as [Hgj Hmj].
    rewrite Hg in Hgj. injection Hgj as ->.
    destruct (insert_step_after m' _ _ _ _ Hmj) as (m'' & -> & Hm'' & Hother).
    eexists m'', _. split_and!; [done|by rewrite length_insert| |].
    + intros i it' Hi. destruct (decide (i = j)) as [->|Hne].
      * rewrite Hit in Hi. injection Hi as <-.
        rewrite steps_of_snoc_eq. split; [|done].
        apply list_lookup_insert_eq. rewrite Hlen. by eapply lookup_lt_Some.
      * rewrite steps_of_snoc_ne by done.
        rewrite list_lookup_insert_ne by done.
        destruct (Hinv i it' Hi) as [Hgi Hmi]. split; [done|].
        rewrite Hother; [done|].
        intros Hk. apply Hne.
        eapply (NoDup_lookup (pair_a <$> items)); [done| |].
        -- by rewrite list_lookup_fmap, Hi.
        -- by rewrite list_lookup_fmap, Hit, Hk.
    + intros k Hk. rewrite Hother; [by apply Hout|].
      intros ->. apply Hk. apply list_elem_of_fmap. exists it. split; [done|].
      by eapply list_elem_of_lookup_2.
  - exists m', gs'. split_and!; [done|done| |done].
    intros i it Hi. rewrite steps_of_snoc_ne; [by apply Hinv|].
    intros ->. apply lookup_ge_None in Hg. apply lookup_lt_Some in Hi. lia.
Qed.

Lemma sent_to_absent key items : key ∉ pair_a <$> items → sent_to key items = [].
Proof.
  induction items as [|[k w] items IH]; [done|].
  rewrite fmap_cons, not_elem_of_cons, sent_to_cons. cbn [pair_a].
  intros [Hne Hk]. rewrite decide_False by done. by apply IH.
Qed.

Lemma sent_to_NoDup items (i : nat) it :
  NoDup (pair_a <$> items) → items !! i = Some it →
  sent_to (pair_a it) items = [pair_b it].
Proof.
  revert i. induction items as [|[k w] items IH]; intros i Hnd Hi; [done|].
  rewrite fmap_cons in Hnd. apply NoDup_cons in Hnd as [Hk Hnd]. cbn [pair_a] in Hk.
  rewrite sent_to_cons. destruct i as [|i]; simpl in Hi.
  - injection Hi as <-. cbn [pair_a pair_b]. rewrite decide_True by done.
    by rewrite sent_to_absent.
  - rewrite decide_False; [by eapply IH|].
    intros ->. apply Hk. apply list_elem_of_fmap. exists it. split; [done|].
    by eapply list_elem_of_lookup_2.
Qed.

Lemma value_after_returned values word n :
  (3 ≤ n)%nat →
  pc_after values word n = Returned
  ∧ value_after values word n = Some (append_word values word).
Proof. destruct n as [|[|[|n]]]; [lia..|done]. Qed.

Lemma interleave_distinct_keys_run (c : Chain) (items : list WorkItem) (s : list nat) :
  NoDup (pair_a <$> items) →
  (∀ i : nat, (i < length items)%nat → (3 ≤ steps_of i s)%nat) →
  interleave s (chain c) (calling_item <$> items)
  = (chain (run c items), returned <$> items).
Proof.
  intros Hnd Hs.
  destruct (interleave_distinct_keys (chain c) items s Hnd)
    as (m' & gs' & -> & Hlen & Hinv & Hout).
  f_equal.
  - apply map_eq. intros k.
    change (chain (run c items) !! k) with (Load (chain (run c items)) k).
    rewrite Load_run.
    destruct (decide (k ∈ pair_a <$> items)) as [Hin|Hnin].
    + apply list_elem_of_fmap in Hin as (it & -> & Hin).
      apply list_elem_of_lookup in Hin as [i Hi].
      destruct (Hinv i it Hi) as [_ ->].
      destruct (value_after_returned (chain c !! pair_a it) (pair_b it) (steps_of i s))
        as [_ ->]; [apply Hs; by eapply lookup_lt_Some|].
      rewrite (sent_to_NoDup items i it Hnd Hi).
      unfold successors, Load, append_word. by destruct (chain c !! pair_a it).
    + rewrite sent_to_absent by done. by apply Hout.
  - apply list_eq. intros i. rewrite list_lookup_fmap.
    destruct (items !! i) as [it|] eqn:Hi; simpl.
    + destruct (Hinv i it Hi) as [-> _].
      destruct (value_after_returned (chain c !! pair_a it) (pair_b it) (steps_of i s))
        as [-> _]; [apply Hs; by eapply lookup_lt_Some|done].
    + apply lookup_ge_None. rewrite Hlen. by apply lookup_ge_None.
Qed.

(** X15. Calls of [Insert] on pairwise different keys cannot disturb each
    other: under every schedule that lets each goroutine take three steps
    or more, all the calls have returned, none has gone round its loop a
    second time, and the table is the one the same calls leave when made
    one after the other. *)
Theorem Insert_distinct_keys_any_schedule (c : Chain) (items : list WorkItem)
    (schedule : list nat) :
  NoDup (pair_a <$> items) →
  (∀ i : nat, (i < length items)%nat → (3 ≤ steps_of i schedule)%nat) →
  interleave schedule (chain c) (calling_item <$> items)
  = (chain (run c items), returned <$> items).
Proof. apply interleave_distinct_keys_run. Qed.

Lemma Insert_distinct_keys_any_schedule_witness :
  interleave [0; 1; 0; 1; 1; 0]%nat (chain (NewChain 1))
    (calling_item <$> [pair_of "x" "a"; pair_of "a" "x"])
  = (chain (run (NewChain 1) [pair_of "x" "a"; pair_of "a" "x"]),
     returned <$> [pair_of "x" "a"; pair_of "a" "x"]).
Proof.
  apply (Insert_distinct_keys_any_schedule (NewChain 1)
           [pair_of "x" "a"; pair_of "a" "x"] [0; 1; 0; 1; 1; 0]%nat).
  - apply (bool_decide_unpack _). by vm_compute.
  - intros [|[|i]] Hi; vm_compute; simpl in Hi; lia.
Defined.

Lemma interleave_three (i : nat) s m pl gs key word :
  gs !! i = Some (calling key word) →
  interleave (i :: i :: i :: s) m gs
  = interleave s (chain (Insert {| chain := m; prefixLen := pl |} key word))
      (<[i := {| ins_key := key; ins_word := word; ins_pc := Returned |}]> gs).
Proof.
  intros Hi. assert (i < length gs)%nat as Hlt by by eapply lookup_lt_Some.
  rewrite chain_Insert. cbn [interleave]. rewrite Hi.
  unfold insert_step at 1. cbn [ins_pc calling ins_key ins_word].
  rewrite list_lookup_insert_eq by done.
  unfold insert_step at 1. cbn [ins_pc ins_key ins_word].
  rewrite list_lookup_insert_eq by (by rewrite length_insert).
  unfold insert_step at 1, LoadOrStore, Delete. cbn [ins_pc ins_key ins_word].
  rewrite lookup_delete_eq, insert_delete_eq, !list_insert_insert_eq.
  unfold successors, Load, append_word. cbn [chain].
  by destruct (m !! key).
Qed.

Lemma interleave_serial_run (c : Chain) (items : list WorkItem) (before : list inserting) :
  interleave (serial (length before) (length items)) (chain c)
    (before ++ (calling_item <$> items))
  = (chain (run c items), before ++ (returned <$> items)).
Proof.
  revert c before. induction items as [|it items IH]; intros c before; [done|].
  rewrite run_cons. cbn [length]. unfold serial. rewrite <- cons_seq, fmap_cons.
  cbn [concat app]. fold (serial (S (length before)) (length items)).
  rewrite (interleave_three _ _ _ (prefixLen c) _ (pair_a it) (pair_b it))
    by (by rewrite fmap_cons, list_lookup_middle).
  rewrite !fmap_cons.
  replace (length before) with (length before + 0)%nat at 2 by lia.
  rewrite insert_app_r.
  change (<[0%nat := ?x]> (calling_item it :: ?l)) with (x :: l).
  fold (returned it).
  rewrite !(cons_middle _ before), !app_assoc.
  replace (S (length before)) with (length (before ++ [returned it]))
    by (rewrite length_app; simpl; lia).
  destruct c as [m pl]. apply IH.
Qed.

(** X16. Calls of [Insert] that do not overlap lose nothing: when every
    goroutine runs its call to the end before the next one starts, all
    return and the table is the one [Insert] leaves when called for the
    items in that order, also when keys repeat. *)
Theorem Insert_serial_schedule (c : Chain) (items : list WorkItem) :
  interleave (serial 0 (length items)) (chain c) (calling_item <$> items)
  = (chain (run c items), returned <$> items).
Proof. apply (interleave_serial_run c items []). Qed.


(** ** BuildGoLock, step by step *)

Lemma forallb_has_returned items : forallb has_returned (returned <$> items) = true.
Proof. induction items as [|it items IH]; [done|]. by rewrite fmap_cons. Qed.

Lemma BuildGoLock_steps_serial (c : Chain) (words : list string) :
  BuildGoLock_steps (serial 0 (Z.to_nat (len words - prefixLen c))) c words
  = BuildGoLock one_by_one c words.
Proof.
  unfold BuildGoLock_steps, BuildGoLock.
  destruct (make (prefixLen c)) as [p|] eqn:Hmk; [|done]. cbn [mbind option_bind].
  apply make_Some in Hmk as (H0 & _ & _).
  destruct (slice words 0 (prefixLen c)) as [seed|] eqn:Hsl; [|done].
  cbn [mbind option_bind].
  assert (prefixLen c ≤ len words) as Hle.
  { unfold slice in Hsl. case_bool_decide; [lia|done]. }
  destruct (scan Insert c p seed) as [r|]; [|done]. cbn [mbind option_bind].
  destruct (go_words c words) as [gs|] eqn:Hgs; [|done]. cbn [mbind option_bind].
  apply go_words_len in Hgs; [|done..].
  replace (Z.to_nat (len words - prefixLen c)) with (length (concat gs))
    by (rewrite <- Hgs; unfold len; lia).
  pose proof (interleave_serial_run r.1 (concat gs) []) as Hrun.
  cbn [length app] in Hrun. rewrite Hrun, forallb_has_returned.
  f_equal. apply Chain_eq; [done|]. unfold one_by_one. by rewrite prefixLen_run.
Qed.

(** X17. [BuildGoLock] whose goroutines run their calls of [Insert] one
    after the other, each to its end, returns what the build with the
    inserts taking effect one at a time in spawn order returns, and
    panics where that one does. *)
Theorem BuildGoLock_steps_serial_is_BuildGoLock (c : Chain) (words : list string) :
  BuildGoLock_steps (serial 0 (Z.to_nat (len words - prefixLen c))) c words
  = BuildGoLock one_by_one c words.
Proof. apply BuildGoLock_steps_serial. Qed.

(** The correctness test passes in its seven configurations when the
    calls of [Insert] do not overlap, in spawn order or in the reverse
    order; with the two calls under "I am" overlapping, [BuildGoLock]
    returns a table the test rejects. *)
Example RunTest_simple :
  Forall (λ WI, RunTest (λ c words, Build one_by_one c words WI.1 WI.2) simple = Some true
                ∧ RunTest (λ c words, Build last_first c words WI.1 WI.2) simple = Some true)
    [(1, 0); (0, 0); (0, 1); (0, 4); (4, 0); (4, 1); (4, 4)]
  ∧ RunTest (BuildGoLock_steps (serial 0 8)) simple = Some true
  ∧ RunTest (BuildGoLock_steps
               [0; 5; 0; 0; 5; 5; 1; 1; 1; 2; 2; 2; 3; 3; 3; 4; 4; 4; 6; 6; 6; 7; 7; 7]%nat)
      simple = Some false.
Proof. split_and!; [repeat constructor; by vm_compute|by vm_compute..]. Qed.
